(** * Idlebrain Downloader: the discovery-and-download pipeline

    A shallow embedding of the four versions of the downloader
    (v1.1 to v1.4) and the properties of their pattern extractor,
    candidate generator, existence prober, download worker and tally.

    Conventions of the embedding:
    - a Python [str] is a list of characters; a character is a code point
      below 256, with the classification Python gives it ([str.isalpha],
      the regular-expression class [\w]);
    - Python integers read from the user are [Z]; loop counters that start
      at a non-negative value and only grow are [nat];
    - the network is a pair of oracles (HEAD and GET) from URLs to what
      [requests] would deliver: a response or a [RequestException]; the
      probers are also given as functions of any outcome of their HEAD
      call, an exception that is not a [RequestException] included;
    - the file system is a finite map from paths to file contents together
      with an oracle for the faults the operating system may raise: a
      refused [open], or a disk that fails at a write or when the file is
      closed and keeps some leading bytes of what was handed to it;
    - an exception is a value of [exn]; a call either returns or raises;
    - a loop that may run forever takes a bound on its turns (fuel) and
      answers [None] when the bound is reached;
    - console output and progress bars are not modelled, and the creation
      of the download folders ([os.makedirs]) is taken to succeed. *)

From stdpp Require Import gmap strings.
From Stdlib Require Import Ascii ZArith DecimalString Permutation Sorted.
From Stdlib Require DecimalPos DecimalZ.

Local Open Scope Z_scope.

(** ** Python values *)

Module Py.

Definition str : Type := list ascii.

Definition lit (s : string) : str := String.list_ascii_of_string s.

(** [str(i)] for an integer. *)
Definition str_of_int (i : Z) : str := lit (NilZero.string_of_int (Z.to_int i)).

(** The exceptions: [RequestException] stands for [requests.RequestException]
    and its subclasses, [LocationParseError] for the exception of urllib3 on
    a URL that it cannot parse, which is not a [RequestException]. *)
Inductive exn : Type :=
| ValueError (msg : str)
| RequestException
| OSError
| LocationParseError.

Inductive result (A : Type) : Type :=
| Return (a : A)
| Raise (e : exn).
Arguments Return {A} a.
Arguments Raise {A} e.

Definition slash : ascii := "/"%char.

Definition code (c : ascii) : N := N_of_ascii c.

Definition between (lo hi : N) (c : ascii) : bool :=
  ((lo <=? code c) && (code c <=? hi))%N.

(** [str.isalpha] on one character. *)
Definition isalpha (c : ascii) : bool :=
  between 65 90 c || between 97 122 c || between 170 170 c
  || between 181 181 c || between 186 186 c || between 192 214 c
  || between 216 246 c || between 248 255 c.

(** The class [[\w\d]] of [re] on a [str] pattern: alphanumeric or underscore. *)
Definition is_word (c : ascii) : bool :=
  isalpha c || between 48 57 c || between 95 95 c || between 178 179 c
  || between 185 185 c || between 188 190 c.

(** [s.startswith(p)] *)
Fixpoint startswith (p s : str) : bool :=
  match p, s with
  | [], _ => true
  | a :: p', b :: s' => Ascii.eqb a b && startswith p' s'
  | _ :: _, [] => false
  end.

(** [s.endswith(p)] *)
Definition endswith (p s : str) : bool := startswith (rev p) (rev s).

(** [needle in hay] for two strings. *)
Fixpoint contains (needle hay : str) : bool :=
  startswith needle hay
  || match hay with
     | [] => false
     | _ :: hay' => contains needle hay'
     end.

(** [s.rpartition('/')] when [s] has a slash: the text before the last
    slash and the text after it. *)
Fixpoint rpartition (s : str) : option (str * str) :=
  match s with
  | [] => None
  | c :: rest =>
      match rpartition rest with
      | Some (h, t) => Some (c :: h, t)
      | None => if Ascii.eqb c slash then Some ([], rest) else None
      end
  end.

(** [s.rsplit('/', 1)[0]] *)
Definition rsplit1_head (s : str) : str :=
  match rpartition s with
  | Some (h, _) => h
  | None => s
  end.

(** [os.path.basename(p)] *)
Definition basename (p : str) : str :=
  match rpartition p with
  | Some (_, t) => t
  | None => p
  end.

(** [os.path.join(a, b)] *)
Definition path_join (a b : str) : str :=
  if startswith [slash] b then b
  else if (List.length a =? 0)%nat || endswith [slash] a then a ++ b
  else a ++ slash :: b.

(** [list(range(lo, hi))] *)
Definition range (lo hi : Z) : list Z := seqZ lo (hi - lo).

(** [''.join(filter(str.isalpha, s))] *)
Definition keep_alpha (s : str) : str := List.filter isalpha s.

End Py.
Import Py.

(** ** The regular expression [/([\w\d]+)/index\.html] *)

Module Re.

Definition index_html : str := lit "/index.html".

(** [([\w\d]+)/index\.html] at the head of [s]: the greedy group takes
    one more word character when the rest still matches, and otherwise
    stops where the literal follows. *)
Fixpoint match_group (s : str) : option str :=
  match s with
  | [] => None
  | c :: rest =>
      if is_word c then
        match match_group rest with
        | Some tok => Some (c :: tok)
        | None => if startswith index_html rest then Some [c] else None
        end
      else None
  end.

(** [re.search(pattern, s)]: the leftmost position where the pattern
    matches; the value is [match.group(1)]. The pattern of v1.1 and v1.2,
    [/([\w\d]+)(?=/index\.html)], has the same first group. *)
Fixpoint search (s : str) : option str :=
  match s with
  | [] => None
  | c :: rest =>
      if Ascii.eqb c slash then
        match match_group rest with
        | Some tok => Some tok
        | None => search rest
        end
      else search rest
  end.

End Re.

(** ** Candidate URLs *)

(** The f-string [f"{base_url}/images/{name}{i}.jpg"] that every version uses. *)
Definition image_url (base_url name : str) (i : Z) : str :=
  base_url ++ lit "/images/" ++ name ++ str_of_int i ++ lit ".jpg".

(** [extract_base_url_and_name] of v1.3 and v1.4 ([extract_name_and_base_url]
    in v1.2 has the same body with the lookahead pattern). *)
Definition extract_base_url_and_name (url : str) : result (str * str) :=
  match Re.search url with
  | None =>
      Raise (ValueError (lit "Invalid URL format. Ensure the URL contains '/index.html'."))
  | Some group1 =>
      let base_url := rsplit1_head url in
      let name := keep_alpha group1 in
      Return (base_url, name)
  end.

(** [generate_image_urls] of v1.4 ([fetch_all_links] of v1.3). *)
Definition generate_image_urls (base_url name : str) (max_attempts : Z) : list str :=
  (fun i => image_url base_url name i) <$> range 1 (max_attempts + 1).

(** ** The environment: network and file system *)

Module Env.

(** What [requests.head] delivers: the status and the [Content-Type]
    header when the server sent one. *)
Record head_response : Type :=
  { head_status : Z;
    content_type : option str }.

(** What [requests.get(..., stream=True)] delivers: the status, the body
    as the chunks [iter_content(1024)] would yield, and, when the
    connection breaks mid-stream, the number of chunks yielded before
    [iter_content] raises. *)
Record get_response : Type :=
  { status_code : Z;
    chunks : list (list ascii);
    breaks_after : option nat }.

(** A fault of the operating system on one path: [open] raises, or the
    disk fails while the file is written. The operations on an open file
    are numbered from 0: the calls of [write], one for each chunk, and then
    the closing of the file, whose number is the number of writes made.
    With [DiskFails op kept] the operation number [op] raises [OSError],
    and of the bytes handed to [write] up to that operation the file keeps
    the first [kept]: writes are buffered, so that the error may come at a
    later write or at the closing, and may leave a part of a chunk. *)
Inductive fault : Type :=
| NoFault
| OpenFails
| DiskFails (op kept : nat).

(** [None] from the network stands for a raised
    [requests.RequestException] (connection error, timeout, ...). *)
Record world : Type :=
  { head : str -> option head_response;
    get : str -> option get_response;
    os_fault : str -> fault }.

(** Does operation number [i] raise? *)
Definition write_fails (flt : fault) (i : nat) : bool :=
  match flt with
  | DiskFails op _ => (op =? i)%nat
  | _ => false
  end.

(** What the file keeps, when the disk fails, of the bytes [handed] to
    [write]. *)
Definition disk_keeps (flt : fault) (handed : list ascii) : list ascii :=
  match flt with
  | DiskFails _ kept => take kept handed
  | _ => handed
  end.


(** The whole body of a response. *)
Definition content (r : get_response) : list ascii := concat (chunks r).

End Env.
Import Env.

(** Code that reads and writes files and may raise. *)
Definition io (A : Type) : Type :=
  gmap str (list ascii) -> gmap str (list ascii) * result A.

#[global] Instance io_ret : MRet io := fun A a fs => (fs, Return a).

#[global] Instance io_bind : MBind io := fun A B f m fs =>
  match m fs with
  | (fs', Return a) => f a fs'
  | (fs', Raise e) => (fs', Raise e)
  end.

Definition raise {A : Type} (e : exn) : io A := fun fs => (fs, Raise e).

(** [try: body except <those e with handler e = Some _>: ...] *)
Definition try_except {A : Type} (body : io A) (handler : exn -> option (io A)) : io A :=
  fun fs =>
    match body fs with
    | (fs', Return a) => (fs', Return a)
    | (fs', Raise e) =>
        match handler e with
        | Some h => h fs'
        | None => (fs', Raise e)
        end
    end.

(** [session.get(url, stream=True)] *)
Definition session_get (w : world) (url : str) : io get_response :=
  match get w url with
  | Some response => mret response
  | None => raise RequestException
  end.

(** [response.raise_for_status()]: [HTTPError] for a 4xx or 5xx status. *)
Definition raise_for_status (response : get_response) : io () :=
  if (400 <=? status_code response) && (status_code response <? 600)
  then raise RequestException
  else mret ().

(** The loop [for chunk in response.iter_content(1024): f.write(chunk)]
    inside [with open(...) as f], from chunk number [i] on, with [written]
    already handed to [write]: the content of the file once the [with]
    block has closed it, and the exception that leaves the block, if one
    does. When [iter_content] raises, the block closes the file, which
    flushes what was handed to [write]; an [OSError] of that closing
    replaces the exception of the stream. *)
Fixpoint write_chunks (breaks : option nat) (flt : fault) (i : nat)
    (pending : list (list ascii)) (written : list ascii) : list ascii * option exn :=
  if bool_decide (breaks = Some i) then
    if write_fails flt i then (disk_keeps flt written, Some OSError)
    else (written, Some RequestException)
  else
    match pending with
    | [] =>
        if write_fails flt i then (disk_keeps flt written, Some OSError)
        else (written, None)
    | chunk :: rest =>
        if write_fails flt i then (disk_keeps flt (written ++ chunk), Some OSError)
        else write_chunks breaks flt (S i) rest (written ++ chunk)
    end.

(** [with open(file_path, 'wb') as f: for chunk in ...: f.write(chunk)]:
    opening creates the file or empties the one that is there; the file is
    closed, and keeps what reached the disk, however the block is left. *)
Definition write_body (w : world) (file_path : str) (response : get_response) : io () :=
  fun fs =>
    match os_fault w file_path with
    | OpenFails => (fs, Raise OSError)
    | flt =>
        let '(data, e) := write_chunks (breaks_after response) flt 0 (chunks response) [] in
        (<[file_path := data]> fs,
         match e with
         | None => Return ()
         | Some e => Raise e
         end)
    end.

Definition lift {A : Type} (r : result A) : io A := fun fs => (fs, r).

(** What [main] prints at its end. *)
Inductive printed : Type :=
| Completed (total downloaded failed : nat)
| NoValidImages
| Error (e : exn).

(** ** Version 1.4 (and the download functions of version 1.3, which are the same text) *)

Module V14.

(** [download_image(session, url, folder)] *)
Definition download_image (w : world) (url folder : str) : io bool :=
  try_except
    (response ← session_get w url;
     raise_for_status response;;
     let filename := basename url in
     let file_path := path_join folder filename in
     write_body w file_path response;;
     mret true)
    (fun e => match e with
              | RequestException => Some (mret false)
              | _ => None
              end).

(** The pool runs every submitted call to its end, whatever the other
    calls do; a future keeps what its call returned or raised. The file
    system after the pool is the one the calls leave when they run one
    after the other in the order of submission. *)
Fixpoint submit_all (w : world) (folder : str) (urls : list str)
    (fs : gmap str (list ascii)) : gmap str (list ascii) * list (result bool) :=
  match urls with
  | [] => (fs, [])
  | url :: rest =>
      let '(fs1, future) := download_image w url folder fs in
      let '(fs2, futures) := submit_all w folder rest fs1 in
      (fs2, future :: futures)
  end.

(** [as_completed(futures)]: the futures in the order in which they
    finish, [order] listing their positions in the order of submission. *)
Definition as_completed {A : Type} (order : list nat) (futures : list A) : list A :=
  omap (fun i => futures !! i) order.

(** The loop over the finished futures; [future.result()] raises what the
    call raised. *)
Fixpoint count_results (finished : list (result bool)) (success_count fail_count : nat)
    : result (nat * nat) :=
  match finished with
  | [] => Return (success_count, fail_count)
  | Return true :: rest => count_results rest (S success_count) fail_count
  | Return false :: rest => count_results rest success_count (S fail_count)
  | Raise e :: _ => Raise e
  end.

(** [download_images(urls, folder)], the pool finishing its calls in the
    order [order]. *)
Definition download_images (w : world) (order : list nat) (urls : list str) (folder : str)
    : io (nat * nat) :=
  fun fs =>
    let success_count := 0%nat in
    let fail_count := 0%nat in
    let '(fs', futures) := submit_all w folder urls fs in
    (fs', count_results (as_completed order futures) success_count fail_count).

Definition ROOT_FOLDER (cwd : str) : str := path_join cwd (lit "Idlebrain Downloads").

(** [main()], with what the three prompts read: the URL and the folder
    name after [strip()], and the number when the text is one. *)
Definition main (w : world) (order : list nat) (cwd original_url folder_input : str)
    (number_input : option Z) : io printed :=
  let folder_name := if (List.length folder_input =? 0)%nat then lit "default" else folder_input in
  let download_folder := path_join (ROOT_FOLDER cwd) folder_name in
  let max_attempts := default 100 number_input in
  try_except
    ('(base_url, name) ← lift (extract_base_url_and_name original_url);
     let all_urls := generate_image_urls base_url name max_attempts in
     '(success_count, fail_count) ← download_images w order all_urls download_folder;
     mret (Completed (List.length all_urls) success_count fail_count))
    (fun e => Some (mret (Error e))).

End V14.

(** ** Version 1.3: validate, then download *)

Module V13.

(** [fetch_all_links(base_url, name, max_attempts=100)] *)
Definition fetch_all_links (base_url name : str) (max_attempts : Z) : list str :=
  let urls := (fun i => image_url base_url name i) <$> range 1 (max_attempts + 1) in
  urls.

(** [validate_image_urls(session, urls)] *)
Definition validate_image_urls (w : world) (urls : list str) : list str :=
  fold_left
    (fun valid_urls url =>
       match head w url with
       | Some response =>
           if (head_status response =? 200)
              && contains (lit "image") (default [] (content_type response))
           then valid_urls ++ [url]
           else valid_urls
       | None => valid_urls
       end)
    urls [].


(** [main()], with what the two prompts read. *)
Definition main (w : world) (order : list nat) (cwd original_url folder_input : str)
    : io printed :=
  let folder_name := if (List.length folder_input =? 0)%nat then lit "default" else folder_input in
  let download_folder := path_join (V14.ROOT_FOLDER cwd) folder_name in
  try_except
    ('(base_url, name) ← lift (extract_base_url_and_name original_url);
     let all_urls := fetch_all_links base_url name 100 in
     let valid_urls := validate_image_urls w all_urls in
     if (0 <? List.length valid_urls)%nat then
       '(success_count, fail_count) ← V14.download_images w order valid_urls download_folder;
       mret (Completed (List.length valid_urls) success_count fail_count)
     else mret NoValidImages)
    (fun e => Some (mret (Error e))).

End V13.

(** ** Version 1.2: adaptive discovery *)

Module V12.

(** [is_image_url(url)] *)
Definition is_image_url (w : world) (url : str) : bool :=
  match head w url with
  | Some response =>
      if (head_status response =? 200)
         && contains (lit "image") (default [] (content_type response))
      then true
      else false
  | None => false
  end.


(** The variables of the loop of [discover_image_urls], and the URLs on
    which [is_image_url] was called so far. *)
Record loop_state : Type :=
  { discovered_urls : list str;
    failures : nat;
    index : nat;
    probed : list str }.

Definition initial : loop_state :=
  {| discovered_urls := []; failures := 0; index := 1; probed := [] |}.

(** One turn of the loop. *)
Definition turn (w : world) (base_url name : str) (st : loop_state) : loop_state :=
  let url := image_url base_url name (Z.of_nat (index st)) in
  if is_image_url w url then
    {| discovered_urls := discovered_urls st ++ [url];
       failures := 0;
       index := S (index st);
       probed := probed st ++ [url] |}
  else
    {| discovered_urls := discovered_urls st;
       failures := S (failures st);
       index := S (index st);
       probed := probed st ++ [url] |}.

(** [while failures < 3: ...], for at most [fuel] turns: the state in
    which the loop is left, or [None] when it is still running. *)
Fixpoint while (w : world) (base_url name : str) (fuel : nat) (st : loop_state)
    : option loop_state :=
  if (failures st <? 3)%nat then
    match fuel with
    | O => None
    | S fuel' => while w base_url name fuel' (turn w base_url name st)
    end
  else Some st.

(** [discover_image_urls(base_url, name)] *)
Definition discover_image_urls (w : world) (base_url name : str) (fuel : nat)
    : option (list str) :=
  discovered_urls <$> while w base_url name fuel initial.

(** [download_image(url, save_path)] (the same text in v1.1), without the
    messages that it logs. *)
Definition download_image (w : world) (url save_path : str) : io () :=
  try_except
    (response ← session_get w url;
     raise_for_status response;;
     write_body w save_path response)
    (fun e => Some (mret ())).

(** [download_images_concurrently(urls, download_folder)]: every URL is
    submitted with its own save path; the results of the futures are never
    read. The file system after the pool is the one the calls leave when
    they run one after the other in the order of submission. *)
Fixpoint download_images_concurrently (w : world) (urls : list str) (download_folder : str)
    : io () :=
  fun fs =>
    match urls with
    | [] => (fs, Return ())
    | url :: rest =>
        let image_name := basename url in
        let save_path := path_join download_folder image_name in
        let '(fs1, _) := download_image w url save_path fs in
        download_images_concurrently w rest download_folder fs1
    end.

End V12.

(** ** Version 1.1 *)

Module V11.



(** [extract_name_and_generate_urls(original_url, end)] *)
Definition extract_name_and_generate_urls (original_url : str) (end_ : Z)
    : result (list str) :=
  match Re.search original_url with
  | None =>
      Raise (ValueError (lit "Invalid URL format. Cannot extract the directory name."))
  | Some directory_name =>
      let name := keep_alpha directory_name in
      let base_url := rsplit1_head original_url in
      let urls := (fun i => image_url base_url name i) <$> range 1 (end_ + 1) in
      Return urls
  end.

End V11.

(** ** Synthetic environments *)

Module Synthetic.

Definition jpeg : head_response :=
  {| head_status := 200; content_type := Some (lit "image/jpeg") |}.

Definition missing : head_response :=
  {| head_status := 404; content_type := Some (lit "text/html") |}.

Definition picture (data : list (list ascii)) : get_response :=
  {| status_code := 200; chunks := data; breaks_after := None |}.

Definition not_found : get_response :=
  {| status_code := 404; chunks := []; breaks_after := None |}.

(** A server that has exactly the images of [base_url] and [name] whose
    numbers are in [numbers], and a disk without faults. *)
Definition serving (base_url name : str) (numbers : list Z) : world :=
  let served url := bool_decide (url ∈ map (image_url base_url name) numbers) in
  {| head := fun url => if served url then Some jpeg else Some missing;
     get := fun url => if served url then Some (picture [lit "JFIF"; lit "data"]) else Some not_found;
     os_fault := fun _ => NoFault |}.

Definition gallery_url : str := lit "https://site.example/gallery42/index.html".
Definition gallery_base : str := lit "https://site.example/gallery42".
Definition gallery_name : str := lit "gallery".

(** The gallery with images 1 and 3 only. *)
Definition gallery_1_3 : world := serving gallery_base gallery_name [1; 3].

(** The gallery with images 1, 2 and 3. *)
Definition gallery_1_2_3 : world := serving gallery_base gallery_name [1; 2; 3].

(** One image whose connection breaks after the first of two chunks. *)
Definition broken_stream : world :=
  {| head := fun _ => Some jpeg;
     get := fun _ => Some {| status_code := 200;
                             chunks := [lit "JFIF"; lit "data"];
                             breaks_after := Some 1%nat |};
     os_fault := fun _ => NoFault |}.

(** One image that arrives whole, on a disk that refuses to open the
    destination (no permission, no space left). *)
Definition read_only_disk : world :=
  {| head := fun _ => Some jpeg;
     get := fun _ => Some (picture [lit "JFIF"; lit "data"]);
     os_fault := fun _ => OpenFails |}.


(** The same image on a disk that fills up: the second write fails and
    stores nothing of its chunk. *)
Definition full_disk : world :=
  {| head := fun _ => Some jpeg;
     get := fun _ => Some (picture [lit "JFIF"; lit "data"]);
     os_fault := fun _ => DiskFails 1 4 |}.

(** The same image on a disk that has room for six bytes: the two writes
    fill the buffer, and the closing of the file, which flushes it, fails. *)
Definition six_bytes_disk : world :=
  {| head := fun _ => Some jpeg;
     get := fun _ => Some (picture [lit "JFIF"; lit "data"]);
     os_fault := fun _ => DiskFails 2 6 |}.


(** No network: every request raises. *)
Definition offline : world :=
  {| head := fun _ => None;
     get := fun _ => None;
     os_fault := fun _ => NoFault |}.

Definition cwd : str := lit "/home/user".
Definition event : str := lit "Event1".

(** A file that is not an image, whose media type has [image] in its name. *)
Definition iso_file : world :=
  {| head := fun _ => Some {| head_status := 200;
                             content_type := Some (lit "application/x-iso9660-image") |};
     get := fun _ => Some (picture [lit "CD001"]);
     os_fault := fun _ => NoFault |}.

Definition one_url : str := lit "https://site.example/gallery42/images/gallery1.jpg".
Definition folder : str := lit "/home/user/Idlebrain Downloads/Event1".
Definition one_path : str := lit "/home/user/Idlebrain Downloads/Event1/gallery1.jpg".

End Synthetic.

(** ** The vocabulary of the specification *)

Module Spec.

(** A token: a non-empty run of word characters. *)
Definition token (tok : str) : Prop :=
  tok ≠ [] ∧ Forall (fun c => is_word c = true) tok.

(** [url] has the path segment [/<tok>/index.html] after [pre], followed
    by [post]. *)
Definition segment_at (url pre tok post : str) : Prop :=
  token tok ∧ url = pre ++ slash :: tok ++ Re.index_html ++ post.

(** [url] contains a path segment matching [/<token>/index.html]. *)
Definition has_segment (url : str) : Prop :=
  ∃ pre tok post, segment_at url pre tok post.

(** The claim on the extractor, for one URL: whatever segment
    [/<tok>/index.html] the URL contains, the stem is the alphabetic part
    of [tok] and the base URL is the text before [/index.html]. *)
Definition extracts_as_claimed (url : str) : Prop :=
  ∀ pre tok post, segment_at url pre tok post →
    extract_base_url_and_name url = Return (pre ++ slash :: tok, keep_alpha tok).



(** The number of [True] and of [False] among the outcomes. *)
Definition succeeded (outcomes : list bool) : nat := length (List.filter id outcomes).
Definition failed (outcomes : list bool) : nat := length (List.filter negb outcomes).

(** The transport fails the download of [url]: the request raises, the
    status is an error, or the connection breaks before the body ends. *)
Definition transport_fails (w : world) (url : str) : bool :=
  match get w url with
  | None => true
  | Some response =>
      (400 <=? status_code response) && (status_code response <? 600)
      || match breaks_after response with
         | Some k => (k <=? length (chunks response))%nat
         | None => false
         end
  end.

(** Where [download_image] of v1.3 and v1.4 stores [url]. *)
Definition destination (folder url : str) : str := path_join folder (basename url).

(** The claim on partial files, for one download into an empty folder:
    when the attempt does not succeed, the destination is absent or holds
    the whole body. *)
Definition no_partial_file_as_claimed (w : world) (url folder : str) : Prop :=
  ∀ fs' outcome,
    V14.download_image w url folder ∅ = (fs', outcome) →
    outcome ≠ Return true →
    fs' !! destination folder url = None
    ∨ ∃ response, get w url = Some response
                  ∧ fs' !! destination folder url = Some (content response).

(** The prober of v1.2 as an oracle on the index of the candidate. *)
Definition oracle (w : world) (base_url name : str) (i : nat) : bool :=
  V12.is_image_url w (image_url base_url name (Z.of_nat i)).

(** Indices [i], [i + 1] and [i + 2] are three misses in a row. *)
Definition three_misses (accepts : nat → bool) (i : nat) : Prop :=
  accepts i = false ∧ accepts (S i) = false ∧ accepts (S (S i)) = false.

(** [n] is the third of the first three misses in a row. *)
Definition third_miss (accepts : nat → bool) (n : nat) : Prop :=
  (3 ≤ n)%nat ∧ three_misses accepts (n - 2)
  ∧ ∀ i, (1 ≤ i)%nat → (i + 2 < n)%nat → ¬ three_misses accepts i.

(** The number of misses in a row that end at index [k]. *)
Fixpoint streak (accepts : nat → bool) (k : nat) : nat :=
  match k with
  | O => O
  | S k' => if accepts k then O else S (streak accepts k')
  end.

(** The variables of the discovery loop after [k] turns. *)
Definition after_turns (w : world) (base_url name : str) (k : nat) : V12.loop_state :=
  Nat.iter k (V12.turn w base_url name) V12.initial.

(** The claim on the final report: 2 downloads succeeded and none failed. *)
Definition reports_as_claimed (report : result printed) : Prop :=
  ∃ total, report = Return (Completed total 2 0).

(** The candidates with the indices [indices]. *)
Definition urls_of (base_url name : str) (indices : list nat) : list str :=
  (fun i => image_url base_url name (Z.of_nat i)) <$> indices.

(** [/<tok>/index.html] after [pre] is the first segment of [url]. *)
Definition first_segment (url pre tok post : str) : Prop :=
  segment_at url pre tok post
  ∧ ∀ pre' tok' post', segment_at url pre' tok' post' → (length pre ≤ length pre')%nat.

(** What one call of [download_image] of v1.4 returns or raises. *)
Definition attempt (w : world) (folder url : str) : result bool :=
  (V14.download_image w url folder ∅).2.

Definition returns_false (outcome : result bool) : bool :=
  match outcome with
  | Return false => true
  | _ => false
  end.


(** The number of chunks after which the stream of [response] breaks, when
    it breaks. *)
Definition stream_breaks (response : get_response) : option nat :=
  match breaks_after response with
  | Some b => if (b <=? length (chunks response))%nat then Some b else None
  | None => None
  end.

(** The operation at which the disk fails while [response] is written, and
    the number of bytes the file keeps, when the disk fails. *)
Definition disk_fails (flt : fault) (response : get_response) : option (nat * nat) :=
  match flt with
  | DiskFails op kept =>
      if (op <=? length (chunks response))%nat then Some (op, kept) else None
  | _ => None
  end.

(** The bytes handed to [write] when operation number [op] fails: the
    chunks before it and, when the operation is a write, its own chunk. The
    operation is the closing of the file when the stream broke after [op]
    chunks or had no more than [op]. *)
Definition handed (response : get_response) (op : nat) : list ascii :=
  concat (take (if bool_decide (breaks_after response = Some op) then op else S op)
               (chunks response)).

(** What a download of [response] leaves in the file that it has opened,
    and the exception that ends the writing if one does, read off the
    stream and the disk: the disk fails first, and the file keeps the bytes
    that reached it; or the stream breaks first, and the file keeps the
    chunks received; or neither happens, and the file holds the body. *)
Definition left_in_file (response : get_response) (flt : fault) : list ascii * option exn :=
  match disk_fails flt response, stream_breaks response with
  | Some (op, kept), Some b =>
      if (op <=? b)%nat then (take kept (handed response op), Some OSError)
      else (concat (take b (chunks response)), Some RequestException)
  | Some (op, kept), None => (take kept (handed response op), Some OSError)
  | None, Some b => (concat (take b (chunks response)), Some RequestException)
  | None, None => (content response, None)
  end.

(** What one call of [download_image] makes of what was left in the file. *)
Definition outcome_of (ending : option exn) : result bool :=
  match ending with
  | None => Return true
  | Some RequestException => Return false
  | Some e => Raise e
  end.

(** The text that follows [/index.html] lets it be a path segment: the URL
    ends there, or the next character opens the next segment, the query or
    the fragment. *)
Definition ends_segment (post : str) : Prop :=
  post = [] ∨ ∃ c rest, post = c :: rest ∧ c ∈ ["/"; "?"; "#"]%char.

(** [url] has the path segments [<token>] and [index.html] one after the
    other. *)
Definition has_path_segment (url : str) : Prop :=
  ∃ pre tok post, segment_at url pre tok post ∧ ends_segment post.

(** The claim on the rejected URLs, for one URL. *)
Definition rejects_as_claimed (url : str) : Prop :=
  ¬ has_path_segment url →
  ∃ msg, extract_base_url_and_name url = Raise (ValueError msg).

(** The texts that follow the occurrences of [needle] in [hay]. *)
Fixpoint after_occurrences (needle hay : str) : list str :=
  (if startswith needle hay then [drop (length needle) hay] else [])
  ++ match hay with
     | [] => []
     | _ :: hay' => after_occurrences needle hay'
     end.


End Spec.
Import Spec.

(** * Properties *)

(** ** Strings *)

Section Strings.

Implicit Types s p pre post tok : str.

Lemma startswith_app p s : startswith p (p ++ s) = true.
Proof.
  induction p as [|a p IH]; simpl; [done|].
  by rewrite Ascii.eqb_refl, IH.
Qed.

Lemma startswith_inv p s : startswith p s = true → ∃ post, s = p ++ post.
Proof.
  revert s; induction p as [|a p IH]; intros [|b s] H; simpl in *; try done.
  - by exists [].
  - by exists (b :: s).
  - apply andb_true_iff in H as [Hab Hp].
    apply Ascii.eqb_eq in Hab as ->.
    destruct (IH _ Hp) as [post ->]. by exists post.
Qed.

Lemma contains_head p s : startswith p s = true → contains p s = true.
Proof. intros H. destruct s; simpl; rewrite H; done. Qed.

Lemma contains_app p a b : contains p (a ++ p ++ b) = true.
Proof.
  induction a as [|c a IH]; simpl.
  - apply contains_head, startswith_app.
  - rewrite IH. apply orb_true_r.
Qed.

Lemma token_no_slash tok : Forall (fun c => is_word c = true) tok → slash ∉ tok.
Proof.
  intros Hall Hin. rewrite Forall_forall in Hall.
  apply Hall in Hin. vm_compute in Hin. done.
Qed.

(** The text before the first slash, and after it, are determined. *)
Lemma first_slash_unique a b x y :
  slash ∉ a → slash ∉ b → a ++ slash :: x = b ++ slash :: y → a = b ∧ x = y.
Proof.
  revert b; induction a as [|c a IH]; intros [|d b] Ha Hb E; cbn [app] in E.
  - by injection E as ->.
  - injection E as Hhead _. subst d. destruct Hb. left.
  - injection E as Hhead _. subst c. destruct Ha. left.
  - injection E as Hhead Htail. subst d.
    apply not_elem_of_cons in Ha as [_ Ha], Hb as [_ Hb].
    destruct (IH b Ha Hb Htail) as [-> ->]. done.
Qed.

Lemma no_slash_prefix a x b y :
  slash ∉ a → a ++ x = b ++ slash :: y → ∃ r, b = a ++ r.
Proof.
  revert b; induction a as [|c a IH]; intros b Ha E; cbn [app] in *.
  - by exists b.
  - destruct b as [|d b]; cbn [app] in E; injection E as Hhead Htail.
    + subst c. destruct Ha. left.
    + subst d. apply not_elem_of_cons in Ha as [_ Ha].
      destruct (IH b Ha Htail) as [r ->]. by exists r.
Qed.

Lemma rpartition_app pre post :
  slash ∉ post → rpartition (pre ++ slash :: post) = Some (pre, post).
Proof.
  intros Hpost.
  assert (Hnone : rpartition post = None).
  { induction post as [|c post IH]; cbn [rpartition]; [done|].
    apply not_elem_of_cons in Hpost as [Hc Hpost]. rewrite (IH Hpost).
    destruct (Ascii.eqb_spec c slash) as [->|]; [by destruct Hc|done]. }
  induction pre as [|c pre IH]; cbn [app rpartition].
  - by rewrite Hnone, Ascii.eqb_refl.
  - by rewrite IH.
Qed.

Lemma keep_alpha_alpha s : Forall (fun c => isalpha c = true) (keep_alpha s).
Proof.
  apply Forall_forall. intros c Hc.
  apply list_elem_of_In, filter_In in Hc. tauto.
Qed.

Lemma keep_alpha_drawn s c : c ∈ keep_alpha s → c ∈ s.
Proof.
  intros Hc. apply list_elem_of_In. apply list_elem_of_In, filter_In in Hc. tauto.
Qed.

Lemma token_forallb (tok : str) :
  tok ≠ [] → forallb is_word tok = true → token tok.
Proof.
  intros Hne Hall. split; [done|]. apply Forall_forall. intros c Hc.
  rewrite forallb_forall in Hall. by apply Hall, list_elem_of_In.
Qed.

(** Every text that follows an occurrence of [needle] is listed. *)
Lemma after_occurrences_complete (needle before after : str) :
  after ∈ after_occurrences needle (before ++ needle ++ after).
Proof.
  induction before as [|c before IH].
  - cbn [app].
    assert (Hunfold : ∀ hay,
              after_occurrences needle hay
              = (if startswith needle hay then [drop (length needle) hay] else [])
                ++ match hay with
                   | [] => []
                   | _ :: hay' => after_occurrences needle hay'
                   end) by (by intros []).
    rewrite Hunfold, startswith_app, drop_app_length.
    apply elem_of_app. left. by apply list_elem_of_singleton.
  - cbn [app after_occurrences]. apply elem_of_app. right. exact IH.
Qed.

End Strings.

(** ** The pattern *)

Section Pattern.

Implicit Types s pre post tok : str.

Lemma index_html_unfold : Re.index_html = slash :: lit "index.html".
Proof. reflexivity. Qed.

Lemma match_group_sound s tok :
  Re.match_group s = Some tok → token tok ∧ ∃ post, s = tok ++ Re.index_html ++ post.
Proof.
  revert tok; induction s as [|c s IH]; intros tok H; cbn [Re.match_group] in H; [done|].
  destruct (is_word c) eqn:Hc; [|done].
  destruct (Re.match_group s) as [t|] eqn:Hs.
  - injection H as <-. destruct (IH t eq_refl) as [[_ Hall] [post ->]].
    split; [split; [done|by constructor]|]. by exists post.
  - destruct (startswith Re.index_html s) eqn:Hlit; [|done].
    injection H as <-. apply startswith_inv in Hlit as [post ->].
    split; [split; [done|by repeat constructor]|]. by exists post.
Qed.

Lemma match_group_token tok post :
  token tok → Re.match_group (tok ++ Re.index_html ++ post) = Some tok.
Proof.
  intros [Hne Hall]. induction Hall as [|c tok Hc Hall IH]; [done|].
  cbn [Re.match_group app]. rewrite Hc. destruct tok as [|d tok].
  - cbn [app]. rewrite startswith_app. reflexivity.
  - by rewrite IH.
Qed.

Lemma search_sound s tok : Re.search s = Some tok → has_segment s.
Proof.
  induction s as [|c s IH]; intros H; cbn [Re.search] in H; [done|].
  assert (Hrest : Re.search s = Some tok → has_segment (c :: s)).
  { intros Hs. destruct (IH Hs) as (pre & t & post & Ht & ->).
    by exists (c :: pre), t, post. }
  destruct (Ascii.eqb_spec c slash) as [->|]; [|auto].
  destruct (Re.match_group s) as [t|] eqn:Hm; [|auto].
  apply match_group_sound in Hm as [Ht [post ->]].
  by exists [], t, post.
Qed.

Lemma search_complete s : has_segment s → is_Some (Re.search s).
Proof.
  intros (pre & tok & post & Htok & ->).
  induction pre as [|c pre IH]; cbn [Re.search app].
  - rewrite Ascii.eqb_refl, match_group_token; done.
  - destruct (Ascii.eqb c slash); [|done].
    destruct (Re.match_group _); done.
Qed.

(** A match that starts before a segment has its [/index.html] before
    that segment too. *)
Lemma match_before_segment pre tok post t :
  token tok →
  Re.match_group (pre ++ slash :: tok ++ Re.index_html ++ post) = Some t →
  contains Re.index_html pre = true.
Proof.
  intros [_ Htok] Hm.
  apply match_group_sound in Hm as [[_ Ht] [post' E]].
  apply token_no_slash in Ht.
  rewrite index_html_unfold in E at 2. cbn [app] in E.
  assert (Hih : slash ∉ lit "index.html").
  { intros Hin. apply list_elem_of_In in Hin. vm_compute in Hin. intuition discriminate. }
  destruct (decide (slash ∈ pre)) as [Hin|Hnin].
  - apply list_elem_of_split_l in Hin as (p1 & p2 & -> & Hp1).
    rewrite <- app_assoc in E. cbn [app] in E.
    apply first_slash_unique in E as [<- E]; [|done..].
    symmetry in E. apply no_slash_prefix in E as [r ->]; [|done].
    change (p1 ++ slash :: lit "index.html" ++ r) with (p1 ++ Re.index_html ++ r).
    apply contains_app.
  - apply first_slash_unique in E as [_ E]; [|done..].
    symmetry in E. apply no_slash_prefix in E as [r ->]; [|done].
    rewrite Forall_forall in Htok.
    assert (Hdot : is_word "."%char = true).
    { apply Htok, list_elem_of_In. vm_compute. tauto. }
    vm_compute in Hdot. done.
Qed.

(** The search finds the first segment of the URL. *)
Lemma search_first pre tok post :
  token tok → contains Re.index_html pre = false →
  Re.search (pre ++ slash :: tok ++ Re.index_html ++ post) = Some tok.
Proof.
  intros Htok. induction pre as [|c pre IH]; intros Hpre; cbn [Re.search app].
  - rewrite Ascii.eqb_refl, match_group_token; done.
  - cbn [contains] in Hpre. apply orb_false_iff in Hpre as [_ Hpre].
    destruct (Ascii.eqb c slash); [|auto].
    destruct (Re.match_group _) as [t|] eqn:Hm; [|auto].
    apply match_before_segment in Hm; [congruence|done].
Qed.

End Pattern.

(** ** The pattern extractor and the bounded generator *)

Section Extractor.

Implicit Types url pre post tok base_url name : str.

Lemma generate_image_urls_length base_url name (n : Z) :
  length (generate_image_urls base_url name n) = Z.to_nat n.
Proof.
  unfold generate_image_urls, range.
  rewrite length_fmap, length_seqZ. f_equal. lia.
Qed.

Lemma generate_image_urls_lookup base_url name (n i : Z) :
  1 ≤ i ≤ n →
  generate_image_urls base_url name n !! Z.to_nat (i - 1) = Some (image_url base_url name i).
Proof.
  intros Hi. unfold generate_image_urls, range.
  rewrite list_lookup_fmap, lookup_seqZ_lt by lia.
  simpl. do 2 f_equal. lia.
Qed.

Lemma rsplit1_head_segment pre tok post :
  slash ∉ post →
  rsplit1_head (pre ++ slash :: tok ++ Re.index_html ++ post) = pre ++ slash :: tok.
Proof.
  intros Hpost. unfold rsplit1_head.
  rewrite index_html_unfold.
  replace (pre ++ slash :: tok ++ (slash :: lit "index.html") ++ post)
    with ((pre ++ slash :: tok) ++ slash :: (lit "index.html" ++ post))
    by (rewrite <- app_assoc; reflexivity).
  rewrite rpartition_app; [done|].
  intros Hin. apply elem_of_app in Hin as [Hin|Hin]; [|done].
  apply list_elem_of_In in Hin. vm_compute in Hin. intuition discriminate.
Qed.

End Extractor.

(** C5, evaluated where the code departs from it: the URL
    [https://site.example/gallery42/index.html?ref=a/b] contains the
    segment [/gallery42/index.html], so that the claim asks for the stem
    [gallery] and the base URL [https://site.example/gallery42]. The stem
    is the one claimed; but [rsplit('/', 1)] cuts the URL at its last
    slash, which is in the query, and the base URL keeps
    [/index.html?ref=a], against the comment [# Base URL without
    'index.html'] on that statement in v1.1 and v1.2. The candidates built
    from it have the claimed shape and point into [index.html?ref=a]. *)
Theorem extract_keeps_index_html_in_base_url :
  segment_at (lit "https://site.example/gallery42/index.html?ref=a/b")
    (lit "https://site.example") (lit "gallery42") (lit "?ref=a/b")
  ∧ extract_base_url_and_name (lit "https://site.example/gallery42/index.html?ref=a/b")
    = Return (lit "https://site.example/gallery42/index.html?ref=a", lit "gallery")
  ∧ lit "https://site.example/gallery42/index.html?ref=a"
    ≠ lit "https://site.example" ++ slash :: lit "gallery42"
  ∧ generate_image_urls (lit "https://site.example/gallery42/index.html?ref=a")
      (lit "gallery") 2
    = [lit "https://site.example/gallery42/index.html?ref=a/images/gallery1.jpg";
       lit "https://site.example/gallery42/index.html?ref=a/images/gallery2.jpg"]
  ∧ V11.extract_name_and_generate_urls
      (lit "https://site.example/gallery42/index.html?ref=a/b") 1
    = Return [lit "https://site.example/gallery42/index.html?ref=a/images/gallery1.jpg"].
Proof.
  split.
  { split; [|reflexivity]. apply token_forallb; [done|]. vm_compute. reflexivity. }
  split; [vm_compute; reflexivity|].
  split; [intros E; vm_compute in E; discriminate|].
  split; vm_compute; reflexivity.
Qed.

(** The claim C5 fails on that URL: the base URL that is returned is not
    the URL cut before [/index.html]. *)
Lemma extract_cuts_at_last_slash :
  ¬ extracts_as_claimed (lit "https://site.example/gallery42/index.html?ref=a/b").
Proof.
  intros H.
  specialize (H (lit "https://site.example") (lit "gallery42") (lit "?ref=a/b")).
  assert (Hseg : segment_at (lit "https://site.example/gallery42/index.html?ref=a/b")
                   (lit "https://site.example") (lit "gallery42") (lit "?ref=a/b")).
  { split; [|reflexivity]. apply token_forallb; [done|]. vm_compute. reflexivity. }
  apply H in Hseg. vm_compute in Hseg. discriminate.
Qed.

(** C6, as the code has it: [extract_base_url_and_name] raises the format
    error ([ValueError]) exactly on the URLs that do not contain the text
    [/<token>/index.html] anywhere, whatever follows that text, and then
    returns no base URL and stem; on every other URL it returns. A URL with
    the path segments [<token>] and [index.html] contains that text, so
    that it is accepted; the URLs that are rejected are among those
    without such segments. *)
Theorem extract_rejects_unmatched (url : str) :
  (¬ has_segment url ↔ ∃ msg, extract_base_url_and_name url = Raise (ValueError msg))
  ∧ (¬ has_segment url → ∀ reference, extract_base_url_and_name url ≠ Return reference)
  ∧ (has_segment url → ∃ reference, extract_base_url_and_name url = Return reference)
  ∧ (has_path_segment url → has_segment url)
  ∧ ((∃ msg, extract_base_url_and_name url = Raise (ValueError msg))
     → ¬ has_path_segment url).
Proof.
  assert (Hpath : has_path_segment url → has_segment url).
  { intros (pre & tok & post & Hseg & _). by exists pre, tok, post. }
  unfold extract_base_url_and_name.
  destruct (Re.search url) as [tok|] eqn:Hs.
  - pose proof (search_sound _ _ Hs) as Hseg.
    split; [split; [done|by intros [msg ?]]|].
    split; [done|]. split; [by eexists|]. split; [done|]. by intros [msg ?].
  - assert (Hno : ¬ has_segment url).
    { intros Hseg. apply search_complete in Hseg as [tok Htok]. congruence. }
    split; [split; [by eexists|done]|].
    split; [done|]. split; [done|]. split; [done|]. intros _ Hp. by apply Hno, Hpath.
Qed.

Lemma extract_rejects_page_html :
  ¬ has_segment (lit "https://example.com/page.html")
  ∧ (∃ msg, extract_base_url_and_name (lit "https://example.com/page.html")
            = Raise (ValueError msg))
  ∧ ∀ reference,
      extract_base_url_and_name (lit "https://example.com/page.html") ≠ Return reference.
Proof.
  assert (Hno : ¬ has_segment (lit "https://example.com/page.html")).
  { intros Hs. apply search_complete in Hs. vm_compute in Hs. by destruct Hs. }
  destruct (extract_rejects_unmatched (lit "https://example.com/page.html"))
    as ([Hraise _] & Hnone & _).
  split; [exact Hno|]. split; [exact (Hraise Hno)|exact (Hnone Hno)].
Defined.

(** The claim C6 as written fails on a URL in which more text follows
    [/index.html] in the same path segment: the URL has the segment
    [index.htmlx] and no segment [index.html], and the extractor accepts
    it. *)
Lemma extract_accepts_index_htmlx :
  ¬ rejects_as_claimed (lit "https://site.example/gallery42/index.htmlx").
Proof.
  intros Hclaim.
  assert (Hocc : after_occurrences Re.index_html
                   (lit "https://site.example/gallery42/index.htmlx") = [lit "x"])
    by (vm_compute; reflexivity).
  assert (Hno : ¬ has_path_segment (lit "https://site.example/gallery42/index.htmlx")).
  { intros (pre & tok & post & [_ E] & Hends).
    assert (Hpost : post ∈ after_occurrences Re.index_html
                             (lit "https://site.example/gallery42/index.htmlx")).
    { rewrite E.
      replace (pre ++ slash :: tok ++ Re.index_html ++ post)
        with ((pre ++ slash :: tok) ++ Re.index_html ++ post)
        by (by rewrite <- app_assoc).
      apply after_occurrences_complete. }
    rewrite Hocc in Hpost. apply list_elem_of_singleton in Hpost. subst post.
    destruct Hends as [?|(c & rest & Hx & Hc)]; [done|].
    assert (c = "x"%char) as -> by (by injection Hx).
    apply list_elem_of_In in Hc. cbn in Hc. intuition discriminate. }
  destruct (Hclaim Hno) as [msg Hraise].
  vm_compute in Hraise. discriminate.
Qed.

(** C8: for every [max_attempts = N ≥ 1], [generate_image_urls] produces
    exactly [N] URLs, the one at position [i - 1] being
    [{base_url}/images/{name}{i}.jpg] for [i] from 1 to [N], so in
    increasing order of the index; for every [N ≤ 0] it produces the empty
    list. *)
Theorem generate_image_urls_bounded (base_url name : str) (N : Z) :
  (1 ≤ N →
     Z.of_nat (length (generate_image_urls base_url name N)) = N
     ∧ ∀ i, 1 ≤ i ≤ N →
         generate_image_urls base_url name N !! Z.to_nat (i - 1)
         = Some (base_url ++ lit "/images/" ++ name ++ str_of_int i ++ lit ".jpg"))
  ∧ (N ≤ 0 → generate_image_urls base_url name N = []).
Proof.
  split.
  - intros HN. split.
    + rewrite generate_image_urls_length. lia.
    + intros i Hi. by apply generate_image_urls_lookup.
  - intros HN. unfold generate_image_urls, range.
    rewrite seqZ_nil by lia. reflexivity.
Qed.

Lemma generate_image_urls_bounded_3 :
  generate_image_urls (lit "https://site.example/gallery42") (lit "gallery") 3
  = [lit "https://site.example/gallery42/images/gallery1.jpg";
     lit "https://site.example/gallery42/images/gallery2.jpg";
     lit "https://site.example/gallery42/images/gallery3.jpg"]
  ∧ generate_image_urls (lit "https://site.example/gallery42") (lit "gallery") (-2) = [].
Proof.
  pose proof (generate_image_urls_bounded
                (lit "https://site.example/gallery42") (lit "gallery") 3) as [H3 _].
  pose proof (generate_image_urls_bounded
                (lit "https://site.example/gallery42") (lit "gallery") (-2)) as [_ Hneg].
  split; [|apply Hneg; lia].
  destruct (H3 ltac:(lia)) as [Hlen Hnth].
  apply list_eq. intros [|[|[|k]]].
  - apply (Hnth 1). lia.
  - apply (Hnth 2). lia.
  - apply (Hnth 3). lia.
  - rewrite lookup_ge_None_2; [done|].
    apply Nat2Z.inj_le. rewrite Hlen. lia.
Defined.

(** ** The existence prober *)

Section Prober.

Variable w : world.

Lemma is_image_url_true (url : str) :
  V12.is_image_url w url = true ↔
  ∃ response ct, head w url = Some response ∧ head_status response = 200
                 ∧ content_type response = Some ct
                 ∧ contains (lit "image") ct = true.
Proof.
  unfold V12.is_image_url.
  destruct (head w url) as [[status oct]|]; cbn [head_status content_type].
  - destruct (Z.eqb_spec status 200) as [->|Hne]; cbn [andb].
    + destruct oct as [ct|]; cbn [default from_option id].
      * destruct (contains (lit "image") ct) eqn:Hct; cbv iota.
        -- split; [|done]. intros _. eexists _, ct. repeat split; done.
        -- split; [done|]. intros (r & ct' & ? & _ & ? & ?); simplify_eq/=. congruence.
      * change (contains (lit "image") []) with false. cbv iota.
        split; [done|]. intros (r & ct' & ? & _ & ? & _); simplify_eq/=.
    + cbv iota. split; [done|]. intros (r & ct' & ? & ? & _); simplify_eq/=.
  - split; [done|]. intros (r & ct' & ? & _); simplify_eq.
Qed.

Lemma validate_image_urls_filter (urls : list str) :
  V13.validate_image_urls w urls = List.filter (V12.is_image_url w) urls.
Proof.
  unfold V13.validate_image_urls.
  enough (H : ∀ acc, fold_left
                       (fun valid_urls url =>
                          match head w url with
                          | Some response =>
                              if (head_status response =? 200)
                                 && contains (lit "image") (default [] (content_type response))
                              then valid_urls ++ [url]
                              else valid_urls
                          | None => valid_urls
                          end) urls acc
                     = acc ++ List.filter (V12.is_image_url w) urls) by apply H.
  induction urls as [|url urls IH]; intros acc; simpl.
  - by rewrite app_nil_r.
  - rewrite IH. unfold V12.is_image_url at 2.
    destruct (head w url) as [response|]; [|done].
    destruct (_ && _); [|done].
    by rewrite <- app_assoc.
Qed.







End Prober.




(** ** The tally *)

Section Tally.

Lemma count_results_returns (outcomes : list bool) (s f : nat) :
  V14.count_results (Return <$> outcomes) s f
  = Return ((s + succeeded outcomes)%nat, (f + failed outcomes)%nat).
Proof.
  revert s f; induction outcomes as [|[] outcomes IH]; intros s f.
  - simpl. do 2 f_equal; unfold succeeded, failed; simpl; lia.
  - simpl. rewrite IH. do 2 f_equal; unfold succeeded, failed; simpl; lia.
  - simpl. rewrite IH. do 2 f_equal; unfold succeeded, failed; simpl; lia.
Qed.

Lemma tally_permutation (outcomes outcomes' : list bool) :
  outcomes ≡ₚ outcomes' →
  succeeded outcomes = succeeded outcomes' ∧ failed outcomes = failed outcomes'.
Proof.
  unfold succeeded, failed.
  induction 1 as [|b l l' _ [IHs IHf]|b c l|l l' l'' _ [IHs IHf] _ [IHs' IHf']].
  - done.
  - destruct b; simpl; auto.
  - destruct b, c; simpl; auto.
  - split; congruence.
Qed.

Lemma tally_total (outcomes : list bool) :
  (succeeded outcomes + failed outcomes = length outcomes)%nat.
Proof.
  unfold succeeded, failed.
  induction outcomes as [|[] outcomes IH]; simpl; lia.
Qed.

End Tally.

(** C9: the tally does not depend on the order in which the downloads
    finish: for every list of boolean outcomes and every permutation of it,
    the loop of [download_images] ends with the same two counters. *)
Theorem count_results_order_independent (outcomes outcomes' : list bool) (s f : nat) :
  outcomes ≡ₚ outcomes' →
  V14.count_results (Return <$> outcomes) s f
  = V14.count_results (Return <$> outcomes') s f.
Proof.
  intros Hperm. rewrite !count_results_returns.
  by destruct (tally_permutation _ _ Hperm) as [-> ->].
Qed.

Lemma count_results_order_independent_3 :
  [true; false; true] ≡ₚ [false; true; true]
  ∧ V14.count_results (Return <$> [true; false; true]) 0 0
    = V14.count_results (Return <$> [false; true; true]) 0 0.
Proof.
  assert (H : [true; false; true] ≡ₚ [false; true; true]) by apply perm_swap.
  split; [exact H|]. exact (count_results_order_independent _ _ 0%nat 0%nat H).
Defined.

(** ** The download worker *)

Section Worker.

Variable w : world.

Implicit Types url folder : str.
Implicit Types fs : gmap str (list ascii).

(** While neither the stream nor the disk fails, the loop hands chunk
    after chunk to [write]. *)
Lemma write_chunks_skip breaks flt m i pending written :
  (m ≤ length pending)%nat →
  (∀ j, (i ≤ j < i + m)%nat → breaks ≠ Some j ∧ write_fails flt j = false) →
  write_chunks breaks flt i pending written
  = write_chunks breaks flt (i + m) (drop m pending) (written ++ concat (take m pending)).
Proof.
  revert i pending written; induction m as [|m IH]; intros i pending written Hlen Hquiet.
  - rewrite Nat.add_0_r, drop_0, take_0. cbn [concat]. by rewrite app_nil_r.
  - destruct pending as [|chunk rest]; [cbn [length] in Hlen; lia|].
    destruct (Hquiet i ltac:(lia)) as [Hb Hw].
    cbn [write_chunks]. rewrite bool_decide_eq_false_2 by done. rewrite Hw.
    rewrite IH.
    + replace (S i + m)%nat with (i + S m)%nat by lia.
      cbn [drop take concat]. by rewrite <- app_assoc.
    + cbn [length] in Hlen. lia.
    + intros j Hj. apply Hquiet. lia.
Qed.

Lemma stream_breaks_Some response b :
  stream_breaks response = Some b →
  breaks_after response = Some b ∧ (b ≤ length (chunks response))%nat.
Proof.
  unfold stream_breaks. destruct (breaks_after response) as [k|]; [|done].
  destruct (Nat.leb_spec k (length (chunks response))); [|done].
  by intros [= <-].
Qed.

Lemma stream_breaks_None response j :
  stream_breaks response = None → (j ≤ length (chunks response))%nat →
  breaks_after response ≠ Some j.
Proof.
  unfold stream_breaks. destruct (breaks_after response) as [k|]; [|done].
  destruct (Nat.leb_spec k (length (chunks response))); [done|].
  intros _ Hj [= ->]. lia.
Qed.

Lemma disk_fails_Some flt response op kept :
  disk_fails flt response = Some (op, kept) →
  flt = DiskFails op kept ∧ (op ≤ length (chunks response))%nat.
Proof.
  unfold disk_fails. destruct flt as [| |op' kept']; [done..|].
  destruct (Nat.leb_spec op' (length (chunks response))); [|done].
  by intros [= <- <-].
Qed.

Lemma disk_fails_None flt response j :
  disk_fails flt response = None → (j ≤ length (chunks response))%nat →
  write_fails flt j = false.
Proof.
  unfold disk_fails. destruct flt as [| |op kept]; [done..|].
  destruct (Nat.leb_spec op (length (chunks response))); [done|].
  intros _ Hj. cbn [write_fails]. apply Nat.eqb_neq. lia.
Qed.

Lemma concat_take_S (l : list (list ascii)) (n : nat) (c : list ascii) :
  l !! n = Some c → concat (take n l) ++ c = concat (take (S n) l).
Proof.
  intros Hc. erewrite take_S_r by done. rewrite concat_app. cbn [concat].
  by rewrite app_nil_r.
Qed.

Lemma concat_take_prefix (l : list (list ascii)) (n : nat) :
  concat (take n l) `prefix_of` concat l.
Proof. exists (concat (drop n l)). by rewrite <- concat_app, take_drop. Qed.

(** The disk fails before the stream breaks. *)
Lemma write_chunks_disk_fails response op kept :
  (op ≤ length (chunks response))%nat →
  (∀ j, (j < op)%nat → breaks_after response ≠ Some j) →
  write_chunks (breaks_after response) (DiskFails op kept) 0 (chunks response) []
  = (take kept (handed response op), Some OSError).
Proof.
  intros Hop Hquiet. rewrite (write_chunks_skip _ _ op) by
    (done || (intros j Hj; split; [apply Hquiet; lia|cbn [write_fails]; apply Nat.eqb_neq; lia])).
  cbn [Nat.add app]. unfold handed.
  destruct (drop op (chunks response)) as [|c rest] eqn:Hdrop;
    cbn [write_chunks write_fails]; rewrite Nat.eqb_refl; cbn [disk_keeps].
  - apply (f_equal length) in Hdrop. rewrite length_drop in Hdrop. cbn [length] in Hdrop.
    case_bool_decide; rewrite !(take_ge (chunks response)) by lia; done.
  - assert (Hc : chunks response !! op = Some c).
    { rewrite <- (Nat.add_0_r op), <- lookup_drop, Hdrop. done. }
    case_bool_decide; [done|]. by rewrite (concat_take_S _ _ _ Hc).
Qed.

(** The stream breaks before the disk fails. *)
Lemma write_chunks_stream_breaks response flt b :
  breaks_after response = Some b → (b ≤ length (chunks response))%nat →
  (∀ j, (j ≤ b)%nat → write_fails flt j = false) →
  write_chunks (breaks_after response) flt 0 (chunks response) []
  = (concat (take b (chunks response)), Some RequestException).
Proof.
  intros Hb Hlen Hquiet. rewrite (write_chunks_skip _ _ b) by
    (done || (intros j Hj; split; [rewrite Hb; intros [= ->]; lia|apply Hquiet; lia])).
  cbn [Nat.add app].
  destruct (drop b (chunks response)) as [|c rest];
    cbn [write_chunks]; rewrite bool_decide_eq_true_2 by done;
    by rewrite Hquiet.
Qed.

(** Neither happens. *)
Lemma write_chunks_whole response flt :
  (∀ j, (j ≤ length (chunks response))%nat →
        breaks_after response ≠ Some j ∧ write_fails flt j = false) →
  write_chunks (breaks_after response) flt 0 (chunks response) []
  = (content response, None).
Proof.
  intros Hquiet. rewrite (write_chunks_skip _ _ (length (chunks response))) by
    (done || (intros j Hj; apply Hquiet; lia)).
  cbn [Nat.add app]. rewrite drop_all, firstn_all. cbn [write_chunks].
  destruct (Hquiet (length (chunks response))) as [Hb Hw]; [done|].
  by rewrite bool_decide_eq_false_2, Hw.
Qed.

(** The loop leaves in the file what the stream and the disk decide. *)
Lemma write_chunks_left response flt :
  write_chunks (breaks_after response) flt 0 (chunks response) []
  = left_in_file response flt.
Proof.
  unfold left_in_file.
  destruct (disk_fails flt response) as [[op kept]|] eqn:Hd;
    destruct (stream_breaks response) as [b|] eqn:Hb.
  - apply disk_fails_Some in Hd as [-> Hop]. apply stream_breaks_Some in Hb as [Hb Hlen].
    destruct (Nat.leb_spec op b).
    + apply write_chunks_disk_fails; [done|]. intros j Hj. rewrite Hb. intros [= ->]. lia.
    + apply write_chunks_stream_breaks; [done..|].
      intros j Hj. cbn [write_fails]. apply Nat.eqb_neq. lia.
  - apply disk_fails_Some in Hd as [-> Hop].
    apply write_chunks_disk_fails; [done|].
    intros j Hj. apply (stream_breaks_None _ _ Hb). lia.
  - apply stream_breaks_Some in Hb as [Hb Hlen].
    apply write_chunks_stream_breaks; [done..|].
    intros j Hj. apply (disk_fails_None _ _ _ Hd). lia.
  - apply write_chunks_whole. intros j Hj. split.
    + by apply stream_breaks_None.
    + by apply (disk_fails_None _ _ _ Hd).
Qed.

(** What is left in the file is a leading part of the body, and the whole
    body when no exception ended the writing. *)
Lemma left_in_file_prefix response flt :
  (left_in_file response flt).1 `prefix_of` content response
  ∧ ((left_in_file response flt).2 = None
     → (left_in_file response flt).1 = content response).
Proof.
  unfold left_in_file, handed, content.
  destruct (disk_fails flt response) as [[op kept]|];
    destruct (stream_breaks response) as [b|]; try destruct (op <=? b)%nat;
    cbn [fst snd]; (split; [|done]); try apply concat_take_prefix; try done.
  all: (etrans; [apply prefix_take|apply concat_take_prefix]).
Qed.

(** On a disk without faults the loop ends with an exception exactly when
    the connection breaks before the body ends. *)
Lemma write_chunks_no_fault breaks i pending written :
  (write_chunks breaks NoFault i pending written).2
  = if match breaks with
       | Some k => (i <=? k)%nat && (k <=? i + length pending)%nat
       | None => false
       end
    then Some RequestException else None.
Proof.
  revert i written; induction pending as [|chunk rest IH]; intros i written;
    cbn [write_chunks write_fails].
  - case_bool_decide as Hb; subst; simpl.
    + by rewrite Nat.add_0_r, Nat.leb_refl.
    + destruct breaks as [k|]; [|done].
      destruct (Nat.leb_spec i k), (Nat.leb_spec k (i + 0)); simpl; try done.
      destruct Hb. f_equal. lia.
  - case_bool_decide as Hb; subst; simpl.
    + rewrite Nat.leb_refl. by destruct (Nat.leb_spec i (i + S (length rest))); [|lia].
    + rewrite IH. destruct breaks as [k|]; [|done].
      destruct (Nat.leb_spec (S i) k), (Nat.leb_spec k (S i + length rest)),
        (Nat.leb_spec i k), (Nat.leb_spec k (i + S (length rest)));
        simpl; try done; try lia.
      destruct Hb. f_equal. lia.
Qed.

(** [download_image] of v1.4, step by step. *)
Lemma download_image_unfold url folder fs :
  V14.download_image w url folder fs
  = match get w url with
    | None => (fs, Return false)
    | Some response =>
        if (400 <=? status_code response) && (status_code response <? 600)
        then (fs, Return false)
        else
          match os_fault w (destination folder url) with
          | OpenFails => (fs, Raise OSError)
          | flt =>
              let written :=
                write_chunks (breaks_after response) flt 0 (chunks response) [] in
              (<[destination folder url := written.1]> fs,
               match written.2 with
               | None => Return true
               | Some RequestException => Return false
               | Some e => Raise e
               end)
          end
    end.
Proof.
  unfold V14.download_image, try_except, mbind, io_bind, session_get,
    raise_for_status, write_body, mret, io_ret, raise, destination.
  destruct (get w url) as [response|]; [|done].
  destruct (_ && _); [done|].
  destruct (os_fault w _); [|done|];
    destruct (write_chunks _ _ _ _ _) as [data [[]|]]; done.
Qed.

(** [download_image] of v1.2, step by step. *)
Lemma download_image_v12_unfold url save_path fs :
  V12.download_image w url save_path fs
  = match get w url with
    | None => (fs, Return ())
    | Some response =>
        if (400 <=? status_code response) && (status_code response <? 600)
        then (fs, Return ())
        else
          match os_fault w save_path with
          | OpenFails => (fs, Return ())
          | flt =>
              (<[save_path :=
                   (write_chunks (breaks_after response) flt 0 (chunks response) []).1]> fs,
               Return ())
          end
    end.
Proof.
  unfold V12.download_image, try_except, mbind, io_bind, session_get,
    raise_for_status, write_body, mret, io_ret, raise.
  destruct (get w url) as [response|]; [|done].
  destruct (_ && _); [done|].
  destruct (os_fault w _); [|done|];
    destruct (write_chunks _ _ _ _ _) as [data [[]|]]; done.
Qed.

Hypothesis sound_disk : ∀ path, os_fault w path = NoFault.

Lemma download_image_outcome url folder fs :
  (V14.download_image w url folder fs).2 = Return (negb (transport_fails w url)).
Proof using sound_disk.
  rewrite download_image_unfold. unfold transport_fails.
  destruct (get w url) as [response|]; [|done].
  destruct (_ && _); [done|].
  rewrite sound_disk. cbn [snd]. rewrite write_chunks_no_fault. simpl.
  destruct (breaks_after response) as [k|]; [|done].
  by destruct (k <=? length (chunks response))%nat.
Qed.

Lemma submit_all_outcomes folder urls fs :
  (V14.submit_all w folder urls fs).2
  = Return <$> ((fun url => negb (transport_fails w url)) <$> urls).
Proof using sound_disk.
  revert fs; induction urls as [|url urls IH]; intros fs; simpl; [done|].
  pose proof (download_image_outcome url folder fs) as Hout.
  destruct (V14.download_image w url folder fs) as [fs1 future].
  specialize (IH fs1). destruct (V14.submit_all w folder urls fs1) as [fs2 futures].
  simpl in *. by rewrite Hout, IH.
Qed.

End Worker.

Section Completion.

Context {A : Type}.

Lemma as_completed_from (earlier futures : list A) :
  omap (fun i => (earlier ++ futures) !! i) (seq (length earlier) (length futures))
  = futures.
Proof.
  revert earlier; induction futures as [|x futures IH]; intros earlier; [done|].
  cbn [length seq omap list_omap]. rewrite list_lookup_middle by done.
  f_equal. specialize (IH (earlier ++ [x])).
  rewrite length_app, Nat.add_1_r, <- app_assoc in IH. exact IH.
Qed.

Lemma as_completed_submission_order (futures : list A) :
  V14.as_completed (seq 0 (length futures)) futures = futures.
Proof. exact (as_completed_from [] futures). Qed.

Lemma as_completed_permutation (order : list nat) (futures : list A) :
  order ≡ₚ seq 0 (length futures) → V14.as_completed order futures ≡ₚ futures.
Proof.
  intros Hperm. unfold V14.as_completed. rewrite Hperm.
  by rewrite <- (as_completed_submission_order futures) at 2.
Qed.

Lemma as_completed_fmap {B : Type} (g : A → B) (order : list nat) (futures : list A) :
  V14.as_completed order (g <$> futures) = g <$> V14.as_completed order futures.
Proof.
  unfold V14.as_completed. induction order as [|i order IH]; csimpl; [done|].
  rewrite list_lookup_fmap, IH. by destruct (futures !! i).
Qed.

End Completion.

(** ** The download pool *)

Section Pool.

Variable w : world.

Lemma failed_transport (urls : list str) :
  failed ((fun url => negb (transport_fails w url)) <$> urls)
  = length (List.filter (transport_fails w) urls).
Proof.
  unfold failed. induction urls as [|url urls IH]; [done|].
  cbn [fmap list_fmap List.filter]. destruct (transport_fails w url); simpl; auto.
Qed.

(** When only the transport fails downloads, every URL is counted once,
    as a success or as a failure, whatever the order of completion. *)
Lemma download_images_counts (order : list nat) (urls : list str) (folder : str)
    (fs : gmap str (list ascii)) :
  (∀ path, os_fault w path = NoFault) →
  order ≡ₚ seq 0 (length urls) →
  ∃ success_count fail_count,
    (V14.download_images w order urls folder fs).2 = Return (success_count, fail_count)
    ∧ (success_count + fail_count = length urls)%nat
    ∧ fail_count = length (List.filter (transport_fails w) urls).
Proof.
  intros Hdisk Horder. unfold V14.download_images.
  pose proof (submit_all_outcomes w Hdisk folder urls fs) as Hout.
  destruct (V14.submit_all w folder urls fs) as [fs' futures].
  cbn [snd] in *. subst futures.
  rewrite as_completed_fmap, count_results_returns.
  set (outcomes := (fun url => negb (transport_fails w url)) <$> urls).
  assert (Hperm : V14.as_completed order outcomes ≡ₚ outcomes).
  { apply as_completed_permutation. unfold outcomes. by rewrite length_fmap. }
  destruct (tally_permutation _ _ Hperm) as [-> ->].
  eexists _, _. split; [reflexivity|]. simpl. split.
  - rewrite tally_total. unfold outcomes. by rewrite length_fmap.
  - apply failed_transport.
Qed.

End Pool.

(** C1, evaluated where the code departs from it: one URL whose image
    arrives whole, on a disk whose second write fails (or that refuses to
    open the file). The download has failed, so the claim asks for the
    counts (0, 1); [download_image] does not return [False] but lets
    [OSError] escape, and [download_images] raises it and returns no
    counts. *)
Theorem download_images_raises_on_disk_failure :
  (V14.download_image Synthetic.full_disk Synthetic.one_url Synthetic.folder ∅).2
    = Raise OSError
  ∧ (V14.download_images Synthetic.full_disk [0%nat] [Synthetic.one_url] Synthetic.folder ∅).2
    = Raise OSError
  ∧ (V14.download_images Synthetic.read_only_disk [0%nat] [Synthetic.one_url]
       Synthetic.folder ∅).2
    = Raise OSError.
Proof. repeat split; vm_compute; reflexivity. Qed.

(** ** Partial files *)

(** C3, as the code has it: [download_image] (v1.4 and v1.3, and v1.2 with
    its own destination) writes into the destination itself and undoes
    nothing. An attempt leaves the file system as it was when it fails
    before the file is open: the request raised, the status was 4xx or 5xx,
    or [open] failed. Otherwise [open] has created the destination, or
    emptied the file that was there, and after the attempt the destination
    holds exactly the bytes that reached the disk: the chunks received
    before the stream broke; or, when a write or the closing of the file
    raised [OSError], the bytes that the disk kept of the chunks handed to
    [write] until then, which may end inside a chunk; or the whole body,
    when the attempt returns [True]. What it holds is always a leading
    part of the body. *)
Theorem download_image_leaves_what_reached_disk (w : world) (url folder save_path : str)
    (fs : gmap str (list ascii)) :
  V14.download_image w url folder fs
  = match get w url with
    | None => (fs, Return false)
    | Some response =>
        if (400 <=? status_code response) && (status_code response <? 600)
        then (fs, Return false)
        else
          match os_fault w (destination folder url) with
          | OpenFails => (fs, Raise OSError)
          | flt =>
              (<[destination folder url := (left_in_file response flt).1]> fs,
               outcome_of (left_in_file response flt).2)
          end
    end
  ∧ (V12.download_image w url save_path fs).1
    = match get w url with
      | None => fs
      | Some response =>
          if (400 <=? status_code response) && (status_code response <? 600)
          then fs
          else
            match os_fault w save_path with
            | OpenFails => fs
            | flt => <[save_path := (left_in_file response flt).1]> fs
            end
      end
  ∧ ∀ response flt,
      (left_in_file response flt).1 `prefix_of` content response
      ∧ (outcome_of (left_in_file response flt).2 = Return true
         → (left_in_file response flt).1 = content response).
Proof.
  rewrite download_image_unfold, download_image_v12_unfold.
  split; [|split].
  - destruct (get w url) as [response|]; [|done].
    destruct (_ && _); [done|].
    destruct (os_fault w (destination folder url));
      cbn zeta; by rewrite ?write_chunks_left.
  - destruct (get w url) as [response|]; [|done].
    destruct (_ && _); [done|].
    destruct (os_fault w save_path); cbn [fst]; by rewrite ?write_chunks_left.
  - intros response flt. destruct (left_in_file_prefix response flt) as [Hprefix Hwhole].
    split; [done|]. intros Hout. apply Hwhole.
    by destruct ((left_in_file response flt).2) as [[]|].
Qed.

(** On a disk with room for six bytes the closing of the file raises
    [OSError], which leaves [download_image] of v1.4, and the destination
    keeps the first chunk and half of the second; on a disk without faults
    the file holds the body. *)
Lemma download_image_leaves_six_bytes :
  (V14.download_image Synthetic.six_bytes_disk Synthetic.one_url Synthetic.folder ∅).1
    !! Synthetic.one_path = Some (lit "JFIFda")
  ∧ (V14.download_image Synthetic.six_bytes_disk Synthetic.one_url Synthetic.folder ∅).2
    = Raise OSError
  ∧ (V12.download_image Synthetic.six_bytes_disk Synthetic.one_url Synthetic.one_path ∅).1
    !! Synthetic.one_path = Some (lit "JFIFda")
  ∧ (left_in_file (Synthetic.picture [lit "JFIF"; lit "data"]) NoFault).1
    = lit "JFIFdata".
Proof.
  destruct (download_image_leaves_what_reached_disk Synthetic.six_bytes_disk
              Synthetic.one_url Synthetic.folder Synthetic.one_path ∅)
    as (-> & -> & Hleft).
  split; [vm_compute; reflexivity|]. split; [vm_compute; reflexivity|].
  split; [vm_compute; reflexivity|].
  destruct (Hleft (Synthetic.picture [lit "JFIF"; lit "data"]) NoFault) as [_ ->];
    reflexivity.
Defined.

(** The claim C3 as written fails when the connection breaks mid-stream:
    the first chunk stays in the file, which is then neither absent nor
    whole. *)
Lemma download_image_leaves_partial_file :
  ¬ no_partial_file_as_claimed Synthetic.broken_stream Synthetic.one_url Synthetic.folder.
Proof.
  intros H.
  destruct (V14.download_image Synthetic.broken_stream Synthetic.one_url Synthetic.folder ∅)
    as [fs' outcome] eqn:E.
  specialize (H fs' outcome E).
  assert (Hout : outcome = Return false) by (apply (f_equal snd) in E; exact (eq_sym E)).
  assert (Hfile : fs' !! destination Synthetic.folder Synthetic.one_url = Some (lit "JFIF")).
  { apply (f_equal fst) in E. cbn [fst] in E. rewrite <- E. vm_compute. reflexivity. }
  destruct H as [Habsent|(response & Hget & Hwhole)].
  - rewrite Hout. discriminate.
  - assert (Hno : Some (lit "JFIF") = None) by (rewrite <- Hfile; exact Habsent).
    discriminate.
  - cbn [get Synthetic.broken_stream] in Hget. injection Hget as <-.
    assert (Hno : Some (lit "JFIF") = Some (lit "JFIFdata"))
      by (rewrite <- Hfile; exact Hwhole).
    vm_compute in Hno. discriminate.
Qed.

(** ** Adaptive discovery *)

Section Discovery.

Variables (w : world) (base_url name : str).

Local Abbreviation accepts := (oracle w base_url name).
Local Abbreviation after := (after_turns w base_url name).
Local Abbreviation while := (V12.while w base_url name).

Lemma while_unfold fuel st :
  while fuel st
  = if (V12.failures st <? 3)%nat then
      match fuel with
      | O => None
      | S fuel' => while fuel' (V12.turn w base_url name st)
      end
    else Some st.
Proof. destruct fuel; reflexivity. Qed.

Lemma after_turns_S k : after (S k) = V12.turn w base_url name (after k).
Proof. reflexivity. Qed.

Lemma after_turns_state k :
  after k
  = {| V12.discovered_urls := urls_of base_url name (List.filter accepts (seq 1 k));
       V12.failures := streak accepts k;
       V12.index := S k;
       V12.probed := urls_of base_url name (seq 1 k) |}.
Proof.
  induction k as [|k IH]; [reflexivity|].
  rewrite after_turns_S, IH.
  unfold V12.turn. cbn [V12.index V12.discovered_urls V12.failures V12.probed].
  rewrite seq_S, List.filter_app. unfold urls_of. rewrite !fmap_app.
  cbn [List.filter streak Nat.add].
  change (V12.is_image_url w (image_url base_url name (Z.of_nat (S k))))
    with (accepts (S k)).
  destruct (accepts (S k)); cbn [fmap list_fmap]; [done|].
  by rewrite app_nil_r.
Qed.

Lemma failures_after k : V12.failures (after k) = streak accepts k.
Proof. by rewrite after_turns_state. Qed.

Lemma streak_three k :
  (3 ≤ streak accepts k)%nat ↔ (3 ≤ k)%nat ∧ three_misses accepts (k - 2).
Proof.
  unfold three_misses. destruct k as [|[|[|k]]].
  1-3: cbn [streak]; repeat (destruct (accepts _)); split; intros; lia.
  replace (S (S (S k)) - 2)%nat with (S k) by lia. cbn [streak].
  destruct (accepts (S k)), (accepts (S (S k))), (accepts (S (S (S k))));
    split; try lia; intros [_ (? & ? & ?)]; try discriminate.
Qed.

Lemma third_miss_streak n :
  third_miss accepts n ↔
  (3 ≤ streak accepts n)%nat ∧ ∀ m, (m < n)%nat → (streak accepts m < 3)%nat.
Proof.
  unfold third_miss. split.
  - intros (Hn & Hmiss & Hfirst). split; [by apply streak_three|].
    intros m Hm. destruct (Nat.lt_ge_cases (streak accepts m) 3) as [|Hge]; [done|].
    apply streak_three in Hge as [Hm3 Hmm].
    destruct (Hfirst (m - 2)%nat); [lia|lia|done].
  - intros [Hge Hfirst]. apply streak_three in Hge as [Hn Hmiss].
    split; [done|]. split; [done|]. intros i Hi Hlt Hi3.
    specialize (Hfirst (i + 2)%nat Hlt).
    assert (3 ≤ streak accepts (i + 2))%nat; [|lia].
    apply streak_three. split; [lia|]. by replace (i + 2 - 2)%nat with i by lia.
Qed.

Lemma first_stop_before k :
  (∀ m, (m < k)%nat → (streak accepts m < 3)%nat)
  ∨ ∃ n, (n < k)%nat ∧ third_miss accepts n.
Proof.
  induction k as [|k [IH|(n & Hn & Hthird)]].
  - left. intros m Hm. lia.
  - destruct (Nat.lt_ge_cases (streak accepts k) 3) as [Hlt|Hge].
    + left. intros m Hm. destruct (decide (m = k)) as [->|]; [done|]. apply IH. lia.
    + right. exists k. split; [lia|]. by apply third_miss_streak.
  - right. exists n. split; [lia|done].
Qed.

(** From three misses in a row to the first such point. *)
Lemma third_miss_exists i :
  (1 ≤ i)%nat → three_misses accepts i → ∃ n, (n ≤ i + 2)%nat ∧ third_miss accepts n.
Proof.
  intros Hi Hmiss.
  assert (Hk : (3 ≤ streak accepts (i + 2))%nat).
  { apply streak_three. split; [lia|]. by replace (i + 2 - 2)%nat with i by lia. }
  destruct (first_stop_before (i + 2)) as [Hlow|(n & Hn & Hthird)].
  - exists (i + 2)%nat. split; [done|]. by apply third_miss_streak.
  - exists n. split; [lia|done].
Qed.

Lemma while_runs d :
  ∀ j fuel,
    (∀ m, (j ≤ m < j + d)%nat → (streak accepts m < 3)%nat) →
    (3 ≤ streak accepts (j + d))%nat → (d ≤ fuel)%nat →
    while fuel (after j) = Some (after (j + d)).
Proof.
  induction d as [|d IH]; intros j fuel Hlow Hstop Hfuel; rewrite while_unfold.
  - rewrite Nat.add_0_r in *. rewrite failures_after.
    by destruct (Nat.ltb_spec (streak accepts j) 3); [lia|].
  - rewrite failures_after.
    destruct (Nat.ltb_spec (streak accepts j) 3) as [_|Hge];
      [|specialize (Hlow j); lia].
    destruct fuel as [|fuel]; [lia|].
    change (V12.turn w base_url name (after j)) with (after (S j)).
    replace (j + S d)%nat with (S j + d)%nat in * by lia.
    apply IH; [|done|lia]. intros m Hm. apply Hlow. lia.
Qed.

Lemma while_waits fuel :
  ∀ j, (∀ m, (j ≤ m ≤ j + fuel)%nat → (streak accepts m < 3)%nat) →
       while fuel (after j) = None.
Proof.
  induction fuel as [|fuel IH]; intros j Hlow; rewrite while_unfold, failures_after.
  - destruct (Nat.ltb_spec (streak accepts j) 3); [done|]. specialize (Hlow j). lia.
  - destruct (Nat.ltb_spec (streak accepts j) 3); [|specialize (Hlow j); lia].
    change (V12.turn w base_url name (after j)) with (after (S j)).
    apply IH. intros m Hm. apply Hlow. lia.
Qed.

Lemma while_stops fuel :
  ∀ j st, while fuel (after j) = Some st →
    ∃ d, (d ≤ fuel)%nat ∧ st = after (j + d)
         ∧ (3 ≤ streak accepts (j + d))%nat
         ∧ ∀ m, (j ≤ m < j + d)%nat → (streak accepts m < 3)%nat.
Proof.
  induction fuel as [|fuel IH]; intros j st; rewrite while_unfold, failures_after;
    destruct (Nat.ltb_spec (streak accepts j) 3) as [Hlt|Hge]; intros Hst;
    simplify_eq.
  - exists 0%nat. rewrite Nat.add_0_r. repeat split; [lia|done|]. intros m Hm. lia.
  - change (V12.turn w base_url name (after j)) with (after (S j)) in Hst.
    destruct (IH _ _ Hst) as (d & Hd & -> & Hstop & Hlow).
    exists (S d). replace (j + S d)%nat with (S j + d)%nat by lia.
    repeat split; [lia|done|]. intros m Hm.
    destruct (decide (m = j)) as [->|]; [done|]. apply Hlow. lia.
  - exists 0%nat. rewrite Nat.add_0_r. repeat split; [lia|done|]. intros m Hm. lia.
Qed.

Lemma filter_seq_sorted (f : nat → bool) n :
  ∀ a, StronglySorted lt (List.filter f (seq a n)).
Proof.
  induction n as [|n IH]; intros a; cbn [seq List.filter]; [constructor|].
  destruct (f a); [|apply IH]. constructor; [apply IH|].
  apply Forall_forall. intros i Hi. apply list_elem_of_In, filter_In in Hi as [Hi _].
  apply in_seq in Hi. lia.
Qed.

End Discovery.

(** C2: the discovery loop of v1.2 (threshold 3, the literal of
    [while failures < 3]) stops at the third of the first three misses in
    a row: when that is candidate [n], the loop ends after exactly [n]
    turns (with any fuel from [n] on, and not with less), having probed the
    candidates 1 to [n] and no other, with the failure counter at 3; the
    three misses follow the last accepted candidate directly; the result is
    the list of the accepted candidates. *)
Theorem discovery_stops_at_third_miss (w : world) (base_url name : str) (n fuel : nat) :
  third_miss (oracle w base_url name) n →
  ((n ≤ fuel)%nat →
     ∃ st, V12.while w base_url name fuel V12.initial = Some st
           ∧ V12.probed st = urls_of base_url name (seq 1 n)
           ∧ length (V12.probed st) = n
           ∧ V12.failures st = 3%nat
           ∧ V12.discovered_urls st
             = urls_of base_url name (List.filter (oracle w base_url name) (seq 1 n))
           ∧ V12.discover_image_urls w base_url name fuel
             = Some (V12.discovered_urls st))
  ∧ ((fuel < n)%nat → V12.while w base_url name fuel V12.initial = None)
  ∧ ((3 < n)%nat → oracle w base_url name (n - 3) = true).
Proof.
  intros Hthird. pose proof Hthird as (Hn & Hmiss & Hfirst).
  apply third_miss_streak in Hthird as [Hstop Hlow].
  split; [|split].
  - intros Hfuel. exists (after_turns w base_url name n).
    assert (Hrun : V12.while w base_url name fuel V12.initial
                   = Some (after_turns w base_url name n)).
    { apply (while_runs w base_url name n 0 fuel); [|done|done].
      intros m Hm. apply Hlow. lia. }
    split; [exact Hrun|].
    unfold V12.discover_image_urls. rewrite Hrun, after_turns_state.
    cbn [V12.probed V12.failures V12.discovered_urls].
    repeat split.
    + unfold urls_of. by rewrite length_fmap, length_seq.
    + destruct n as [|n]; [lia|]. specialize (Hlow n). cbn [streak] in *.
      destruct (oracle w base_url name (S n)); lia.
  - intros Hfuel. apply (while_waits w base_url name fuel 0).
    intros m Hm. apply Hlow. lia.
  - intros Hn3. destruct (oracle w base_url name (n - 3)) eqn:Hacc; [done|].
    destruct (Hfirst (n - 3)%nat); [lia|lia|].
    destruct Hmiss as (H1 & H2 & _). unfold three_misses.
    replace (S (n - 3)) with (n - 2)%nat by lia.
    replace (S (n - 2)) with (S (n - 2)) by lia. done.
Qed.

Lemma discovery_stops_after_six_probes :
  ∃ st,
    V12.while Synthetic.gallery_1_2_3 Synthetic.gallery_base Synthetic.gallery_name 6
      V12.initial = Some st
    ∧ length (V12.probed st) = 6%nat
    ∧ V12.discovered_urls st
      = [lit "https://site.example/gallery42/images/gallery1.jpg";
         lit "https://site.example/gallery42/images/gallery2.jpg";
         lit "https://site.example/gallery42/images/gallery3.jpg"]
    ∧ V12.while Synthetic.gallery_1_2_3 Synthetic.gallery_base Synthetic.gallery_name 5
        V12.initial = None.
Proof.
  assert (Hthird : third_miss
            (oracle Synthetic.gallery_1_2_3 Synthetic.gallery_base Synthetic.gallery_name) 6).
  { split; [lia|]. split; [by vm_compute|].
    intros i H1 H2 [Hmiss _].
    assert (Hi : i = 1%nat ∨ i = 2%nat ∨ i = 3%nat) by lia.
    destruct Hi as [->|[->| ->]]; vm_compute in Hmiss; discriminate. }
  destruct (discovery_stops_at_third_miss Synthetic.gallery_1_2_3 Synthetic.gallery_base
              Synthetic.gallery_name 6 6 Hthird) as (Hrun & _ & _).
  destruct (discovery_stops_at_third_miss Synthetic.gallery_1_2_3 Synthetic.gallery_base
              Synthetic.gallery_name 6 5 Hthird) as (_ & Hwait & _).
  destruct (Hrun ltac:(lia)) as (st & Hst & _ & Hlen & _ & Hurls & _).
  exists st. split; [exact Hst|]. split; [exact Hlen|].
  split; [rewrite Hurls; vm_compute; reflexivity|]. apply Hwait. lia.
Defined.

(** C10: with the prober as an oracle on the index, the discovery loop of
    v1.2 terminates if and only if somewhere three candidates in a row are
    rejected; an oracle that accepts every index, or never rejects three in
    a row, keeps it running whatever the fuel; when it terminates, at the
    third miss [n], it returns the URLs of exactly the indices from 1 to
    [n] that the oracle accepted, in strictly increasing order of the
    index. *)
Theorem discovery_terminates_iff (w : world) (base_url name : str) :
  ((∃ fuel urls, V12.discover_image_urls w base_url name fuel = Some urls)
   ↔ ∃ i, (1 ≤ i)%nat ∧ three_misses (oracle w base_url name) i)
  ∧ (∀ fuel urls,
       V12.discover_image_urls w base_url name fuel = Some urls →
       ∃ n indices,
         third_miss (oracle w base_url name) n
         ∧ urls = urls_of base_url name indices
         ∧ StronglySorted lt indices
         ∧ ∀ i, i ∈ indices ↔ (1 ≤ i ≤ n)%nat ∧ oracle w base_url name i = true)
  ∧ ((∀ i, (1 ≤ i)%nat → oracle w base_url name i = true) →
     ∀ fuel, V12.discover_image_urls w base_url name fuel = None)
  ∧ ((∀ i, (1 ≤ i)%nat → ¬ three_misses (oracle w base_url name) i) →
     ∀ fuel, V12.discover_image_urls w base_url name fuel = None).
Proof.
  assert (Hstops : ∀ fuel urls,
            V12.discover_image_urls w base_url name fuel = Some urls →
            ∃ n, third_miss (oracle w base_url name) n
                 ∧ urls = urls_of base_url name
                            (List.filter (oracle w base_url name) (seq 1 n))).
  { intros fuel urls Hrun. unfold V12.discover_image_urls in Hrun.
    destruct (V12.while w base_url name fuel V12.initial) as [st|] eqn:Hst; [|done].
    apply (while_stops w base_url name fuel 0) in Hst as (d & _ & -> & Hstop & Hlow).
    cbn [Nat.add] in *. exists d. split.
    - apply third_miss_streak. split; [done|]. intros m Hm. apply Hlow. lia.
    - rewrite after_turns_state in Hrun. by injection Hrun as <-. }
  assert (Hforever : (∀ i, (1 ≤ i)%nat → ¬ three_misses (oracle w base_url name) i) →
                     ∀ fuel, V12.discover_image_urls w base_url name fuel = None).
  { intros Hnever fuel.
    destruct (V12.discover_image_urls w base_url name fuel) as [urls|] eqn:Hrun; [|done].
    destruct (Hstops _ _ Hrun) as (n & (Hn & Hmiss & _) & _).
    destruct (Hnever (n - 2)%nat); [lia|done]. }
  split; [split|split; [|split]].
  - intros (fuel & urls & Hrun).
    destruct (Hstops _ _ Hrun) as (n & (Hn & Hmiss & _) & _).
    exists (n - 2)%nat. split; [lia|done].
  - intros (i & Hi & Hmiss).
    destruct (third_miss_exists w base_url name i Hi Hmiss) as (n & _ & Hthird).
    apply third_miss_streak in Hthird as [Hstop Hlow].
    exists n, (V12.discovered_urls (after_turns w base_url name n)).
    assert (Hrun : V12.while w base_url name n V12.initial
                   = Some (after_turns w base_url name n)).
    { apply (while_runs w base_url name n 0 n); [|done|done].
      intros m Hm. apply Hlow. lia. }
    unfold V12.discover_image_urls. by rewrite Hrun.
  - intros fuel urls Hrun. destruct (Hstops _ _ Hrun) as (n & Hthird & ->).
    exists n, (List.filter (oracle w base_url name) (seq 1 n)).
    split; [done|]. split; [done|]. split; [apply filter_seq_sorted|].
    intros i. rewrite list_elem_of_In, filter_In, in_seq.
    split; intros [Hi Hacc]; (split; [lia|exact Hacc]).
  - intros Hall. apply Hforever. intros i Hi (Hmiss & _).
    rewrite Hall in Hmiss; done.
  - exact Hforever.
Qed.

Lemma discovery_terminates_on_gallery :
  (1 ≤ 4)%nat
  ∧ three_misses
      (oracle Synthetic.gallery_1_2_3 Synthetic.gallery_base Synthetic.gallery_name) 4
  ∧ ∃ fuel urls,
      V12.discover_image_urls Synthetic.gallery_1_2_3 Synthetic.gallery_base
        Synthetic.gallery_name fuel = Some urls.
Proof.
  assert (Hmiss : three_misses
            (oracle Synthetic.gallery_1_2_3 Synthetic.gallery_base Synthetic.gallery_name) 4)
    by (by vm_compute).
  split; [lia|]. split; [exact Hmiss|].
  apply (discovery_terminates_iff Synthetic.gallery_1_2_3 Synthetic.gallery_base
           Synthetic.gallery_name).
  exists 4%nat. split; [lia|exact Hmiss].
Defined.

(** ** End to end *)

Section EndToEnd.

Variable w : world.
Hypothesis sound_disk : ∀ path, os_fault w path = NoFault.

Variables (order : list nat) (cwd original_url folder_input base_url name : str).
Variable fs : gmap str (list ascii).
Hypothesis extracted : extract_base_url_and_name original_url = Return (base_url, name).

(** v1.4 downloads every candidate: its [Failed] counts the candidates
    that the transport fails, missing ones included. *)
Lemma main_v14_report (number_input : option Z) :
  let all_urls := generate_image_urls base_url name (default 100 number_input) in
  order ≡ₚ seq 0 (length all_urls) →
  ∃ success_count fail_count,
    (V14.main w order cwd original_url folder_input number_input fs).2
    = Return (Completed (length all_urls) success_count fail_count)
    ∧ (success_count + fail_count = length all_urls)%nat
    ∧ fail_count = length (List.filter (transport_fails w) all_urls).
Proof using sound_disk extracted.
  intros all_urls Horder.
  unfold V14.main, try_except, mbind, io_bind, lift, mret, io_ret.
  rewrite extracted. fold all_urls.
  set (download_folder := path_join _ _).
  destruct (download_images_counts w order all_urls download_folder fs sound_disk Horder)
    as (s & f & Hcounts & Htotal & Hfail).
  destruct (V14.download_images w order all_urls download_folder fs) as [fs' counts].
  cbn [snd] in Hcounts. subst counts. by exists s, f.
Qed.

(** v1.3 downloads the validated candidates only: its [Failed] counts the
    download failures among them. *)
Lemma main_v13_report :
  let valid_urls := V13.validate_image_urls w (V13.fetch_all_links base_url name 100) in
  valid_urls ≠ [] →
  order ≡ₚ seq 0 (length valid_urls) →
  ∃ success_count fail_count,
    (V13.main w order cwd original_url folder_input fs).2
    = Return (Completed (length valid_urls) success_count fail_count)
    ∧ (success_count + fail_count = length valid_urls)%nat
    ∧ fail_count = length (List.filter (transport_fails w) valid_urls).
Proof using sound_disk extracted.
  intros valid_urls Hvalid Horder.
  unfold V13.main, try_except, mbind, io_bind, lift, mret, io_ret.
  rewrite extracted. fold valid_urls.
  set (download_folder := path_join _ _).
  destruct valid_urls as [|url urls] eqn:E; [done|]. rewrite <- E in *.
  replace (0 <? length valid_urls)%nat with true by (by rewrite E).
  destruct (download_images_counts w order valid_urls download_folder fs sound_disk Horder)
    as (s & f & Hcounts & Htotal & Hfail).
  destruct (V14.download_images w order valid_urls download_folder fs) as [fs' counts].
  cbn [snd] in Hcounts. subst counts. by exists s, f.
Qed.

End EndToEnd.

(** C7, as the code has it: for the input
    [https://site.example/gallery42/index.html] and a server that has
    images 1 and 3 only, whatever the order in which the downloads finish:
    [main] of v1.4, which has no validation stage, with bound 3 downloads
    all 3 candidates and prints Total 3, Downloaded 2, Failed 1 (the
    missing candidate 2 is a failed download); the stages of v1.3 on the
    same 3 candidates find 2 valid URLs and download them with 2 successes
    and 0 failures, so that an invalid candidate is not counted as failed;
    [main] of v1.3, whose bound is fixed at 100, prints Total 2,
    Downloaded 2, Failed 0. *)
Theorem end_to_end_gallery (order3 order2 : list nat) (cwd folder_input : str)
    (fs : gmap str (list ascii)) :
  order3 ≡ₚ seq 0 3 → order2 ≡ₚ seq 0 2 →
  (V14.main Synthetic.gallery_1_3 order3 cwd Synthetic.gallery_url folder_input (Some 3) fs).2
    = Return (Completed 3 2 1)
  ∧ length (V13.fetch_all_links Synthetic.gallery_base Synthetic.gallery_name 3) = 3%nat
  ∧ V13.validate_image_urls Synthetic.gallery_1_3
      (V13.fetch_all_links Synthetic.gallery_base Synthetic.gallery_name 3)
    = [lit "https://site.example/gallery42/images/gallery1.jpg";
       lit "https://site.example/gallery42/images/gallery3.jpg"]
  ∧ (V14.download_images Synthetic.gallery_1_3 order2
       [lit "https://site.example/gallery42/images/gallery1.jpg";
        lit "https://site.example/gallery42/images/gallery3.jpg"]
       (path_join (V14.ROOT_FOLDER cwd) folder_input) fs).2
    = Return (2%nat, 0%nat)
  ∧ (V13.main Synthetic.gallery_1_3 order2 cwd Synthetic.gallery_url folder_input fs).2
    = Return (Completed 2 2 0).
Proof.
  intros Horder3 Horder2.
  assert (Hdisk : ∀ path, os_fault Synthetic.gallery_1_3 path = NoFault) by done.
  assert (Hextract : extract_base_url_and_name Synthetic.gallery_url
                     = Return (Synthetic.gallery_base, Synthetic.gallery_name))
    by (vm_compute; reflexivity).
  split; [|split; [by vm_compute|split; [by vm_compute|split]]].
  - destruct (main_v14_report Synthetic.gallery_1_3 Hdisk order3 cwd Synthetic.gallery_url
                folder_input Synthetic.gallery_base Synthetic.gallery_name fs Hextract
                (Some 3)) as (s & f & -> & Htotal & Hfail).
    { by rewrite generate_image_urls_length. }
    assert (Hlen : length (generate_image_urls Synthetic.gallery_base
                             Synthetic.gallery_name (default 100 (Some 3))) = 3%nat)
      by (vm_compute; reflexivity).
    rewrite Hlen in *.
    assert (f = 1%nat) as -> by (rewrite Hfail; vm_compute; reflexivity).
    assert (s = 2%nat) as -> by lia.
    reflexivity.
  - destruct (download_images_counts Synthetic.gallery_1_3 order2
                [lit "https://site.example/gallery42/images/gallery1.jpg";
                 lit "https://site.example/gallery42/images/gallery3.jpg"]
                (path_join (V14.ROOT_FOLDER cwd) folder_input) fs Hdisk Horder2)
      as (s & f & -> & Htotal & Hfail).
    assert (f = 0%nat) as -> by (rewrite Hfail; vm_compute; reflexivity).
    assert (s = 2%nat) as -> by (cbn [length] in Htotal; lia).
    reflexivity.
  - assert (Hvalid : V13.validate_image_urls Synthetic.gallery_1_3
                       (V13.fetch_all_links Synthetic.gallery_base Synthetic.gallery_name 100)
                     = [lit "https://site.example/gallery42/images/gallery1.jpg";
                        lit "https://site.example/gallery42/images/gallery3.jpg"])
      by (vm_compute; reflexivity).
    destruct (main_v13_report Synthetic.gallery_1_3 Hdisk order2 cwd Synthetic.gallery_url
                folder_input Synthetic.gallery_base Synthetic.gallery_name fs Hextract)
      as (s & f & -> & Htotal & Hfail).
    { by rewrite Hvalid. }
    { by rewrite Hvalid. }
    rewrite Hvalid in *.
    assert (f = 0%nat) as -> by (rewrite Hfail; vm_compute; reflexivity).
    assert (s = 2%nat) as -> by (cbn [length] in Htotal; lia).
    reflexivity.
Qed.

Lemma end_to_end_gallery_in_order :
  (V14.main Synthetic.gallery_1_3 [2; 0; 1]%nat Synthetic.cwd Synthetic.gallery_url
     Synthetic.event (Some 3) ∅).2
    = Return (Completed 3 2 1)
  ∧ (V13.main Synthetic.gallery_1_3 [1; 0]%nat Synthetic.cwd Synthetic.gallery_url
       Synthetic.event ∅).2
    = Return (Completed 2 2 0).
Proof.
  assert (H3 : [2; 0; 1]%nat ≡ₚ seq 0 3).
  { apply (perm_trans (l' := [0; 2; 1]%nat)); [apply perm_swap|].
    apply perm_skip, perm_swap. }
  assert (H2 : [1; 0]%nat ≡ₚ seq 0 2) by apply perm_swap.
  destruct (end_to_end_gallery [2; 0; 1]%nat [1; 0]%nat Synthetic.cwd Synthetic.event ∅ H3 H2)
    as (H14 & _ & _ & _ & H13).
  split; [exact H14|exact H13].
Defined.

(** The claim C7 as written fails on the current version: v1.4 counts the
    candidate that does not exist as a failed download. *)
Lemma main_v14_counts_missing_candidate :
  ¬ reports_as_claimed
      (V14.main Synthetic.gallery_1_3 [0; 1; 2]%nat Synthetic.cwd Synthetic.gallery_url
         Synthetic.event (Some 3) ∅).2.
Proof.
  intros [total H]. vm_compute in H. discriminate.
Qed.

(** * Further properties *)

(** ** The extractor on every URL *)

Section FirstSegment.

Implicit Types url pre post tok : str.

(** The token that follows a given slash is determined. *)
Lemma segment_token_unique url pre tok post tok' post' :
  segment_at url pre tok post → segment_at url pre tok' post' → tok = tok'.
Proof.
  intros [[_ Htok] ->] [[_ Htok'] E].
  apply app_inv_head in E.
  assert (E' : tok ++ slash :: (lit "index.html" ++ post)
               = tok' ++ slash :: (lit "index.html" ++ post')).
  { assert (E' : tok ++ Re.index_html ++ post = tok' ++ Re.index_html ++ post')
      by congruence.
    exact E'. }
  apply first_slash_unique in E' as [E' _]; [done|by apply token_no_slash..].
Qed.

Lemma search_first_segment url tok :
  Re.search url = Some tok → ∃ pre post, first_segment url pre tok post.
Proof.
  induction url as [|c url IH]; intros H; cbn [Re.search] in H; [done|].
  assert (Hrest : Re.match_group url = None ∨ c ≠ slash →
                  Re.search url = Some tok →
                  ∃ pre post, first_segment (c :: url) pre tok post).
  { intros Hhead Hs. destruct (IH Hs) as (pre & post & [Htok ->] & Hfirst).
    exists (c :: pre), post. split; [done|].
    intros [|d pre'] tok' post' [Htok' E]; cbn [app] in E.
    - assert (Hc : c = slash) by congruence.
      assert (E' : pre ++ slash :: tok ++ Re.index_html ++ post
                   = tok' ++ Re.index_html ++ post') by congruence.
      destruct Hhead as [Hnone|]; [|done].
      rewrite E', match_group_token in Hnone; done.
    - assert (E' : pre ++ slash :: tok ++ Re.index_html ++ post
                   = pre' ++ slash :: tok' ++ Re.index_html ++ post') by congruence.
      cbn [length]. apply le_n_S.
      apply (Hfirst pre' tok' post'). by split. }
  destruct (Ascii.eqb_spec c slash) as [->|Hc]; [|by apply Hrest; [right|]].
  destruct (Re.match_group url) as [t|] eqn:Hm; [|by apply Hrest; [left|]].
  injection H as ->. apply match_group_sound in Hm as [Htok [post ->]].
  exists [], post. split; [done|]. intros pre' tok' post' _. cbn [length]. lia.
Qed.

Lemma first_segment_search url pre tok post :
  first_segment url pre tok post → Re.search url = Some tok.
Proof.
  intros [Hseg Hfirst].
  destruct (search_complete url) as [t Ht]; [by exists pre, tok, post|].
  destruct (search_first_segment url t Ht) as (pre' & post' & Hseg' & Hfirst').
  assert (Hlen : length pre' = length pre).
  { apply Nat.le_antisymm; [by eapply Hfirst'|by eapply Hfirst]. }
  assert (pre' = pre) as ->.
  { destruct Hseg as [_ E], Hseg' as [_ E']. rewrite E in E'.
    by apply app_inj_1 in E' as [-> _]. }
  rewrite Ht. f_equal. by eapply segment_token_unique.
Qed.

Lemma rpartition_split s h t :
  rpartition s = Some (h, t) → s = h ++ slash :: t ∧ slash ∉ t.
Proof.
  revert h t; induction s as [|c s IH]; intros h t H; cbn [rpartition] in H; [done|].
  destruct (rpartition s) as [[h' t']|] eqn:Hs.
  - injection H as <- <-. destruct (IH _ _ eq_refl) as [-> Ht]. done.
  - destruct (Ascii.eqb_spec c slash) as [->|]; [|done].
    injection H as <- <-. split; [done|].
    clear IH. induction s as [|d s IH]; [apply not_elem_of_nil|].
    cbn [rpartition] in Hs. destruct (rpartition s) as [[]|]; [done|].
    destruct (Ascii.eqb_spec d slash); [done|].
    apply not_elem_of_cons. split; [done|by apply IH].
Qed.

Lemma rpartition_slash s : slash ∈ s → is_Some (rpartition s).
Proof.
  induction s as [|c s IH]; intros Hin; [by apply elem_of_nil in Hin|].
  cbn [rpartition]. destruct (rpartition s) as [[h t]|] eqn:Hs; [done|].
  apply elem_of_cons in Hin as [<-|Hin]; [by rewrite Ascii.eqb_refl|].
  by destruct (IH Hin).
Qed.

Lemma extract_returns_iff url base_url name :
  extract_base_url_and_name url = Return (base_url, name)
  ↔ ∃ pre tok post,
      first_segment url pre tok post
      ∧ base_url = rsplit1_head url ∧ name = keep_alpha tok.
Proof.
  unfold extract_base_url_and_name. split.
  - destruct (Re.search url) as [tok|] eqn:Hs; [|done].
    intros [= <- <-]. destruct (search_first_segment url tok Hs) as (pre & post & Hfirst).
    by exists pre, tok, post.
  - intros (pre & tok & post & Hfirst & -> & ->).
    by rewrite (first_segment_search _ _ _ _ Hfirst).
Qed.

Lemma extract_splits url base_url name :
  extract_base_url_and_name url = Return (base_url, name) →
  url = base_url ++ slash :: basename url
  ∧ (slash ∉ basename url)
  ∧ (length base_url < length url)%nat
  ∧ Forall (fun c => isalpha c = true) name
  ∧ (∀ c, c ∈ name → c ∈ url).
Proof.
  intros H. apply extract_returns_iff in H
    as (pre & tok & post & [[Htok Hurl] _] & -> & ->).
  assert (Hslash : slash ∈ url).
  { rewrite Hurl. apply elem_of_app. right. left. }
  destruct (rpartition_slash url Hslash) as [[h t] Hp].
  unfold rsplit1_head, basename. rewrite Hp.
  destruct (rpartition_split _ _ _ Hp) as [E Ht].
  repeat split; [done|done| | |].
  - rewrite E, length_app. cbn [length]. lia.
  - apply keep_alpha_alpha.
  - intros c Hc. apply keep_alpha_drawn in Hc. rewrite Hurl.
    apply elem_of_app. right. right. apply elem_of_app. by left.
Qed.

End FirstSegment.

(** X1: [extract_base_url_and_name] returns exactly on the URLs that have a
    segment [/<token>/index.html]; the name is then the alphabetic part of
    the token of the first such segment, and the base URL is the URL cut at
    its last slash. *)
Theorem extract_returns_first_segment (url base_url name : str) :
  extract_base_url_and_name url = Return (base_url, name)
  ↔ ∃ pre tok post,
      first_segment url pre tok post
      ∧ base_url = rsplit1_head url ∧ name = keep_alpha tok.
Proof. apply extract_returns_iff. Qed.

Lemma extract_returns_first_segment_gallery :
  ∃ pre tok post,
    first_segment Synthetic.gallery_url pre tok post
    ∧ Synthetic.gallery_base = rsplit1_head Synthetic.gallery_url
    ∧ Synthetic.gallery_name = keep_alpha tok.
Proof.
  apply extract_returns_first_segment. vm_compute. reflexivity.
Defined.

(** X2: whenever [extract_base_url_and_name] returns, the URL is the base
    URL, a slash and a last component without slash (the base name of the
    URL); the base URL is shorter than the URL, and the name has alphabetic
    characters only, all of them characters of the URL. *)
Theorem extract_splits_url (url base_url name : str) :
  extract_base_url_and_name url = Return (base_url, name) →
  url = base_url ++ slash :: basename url
  ∧ (slash ∉ basename url)
  ∧ (length base_url < length url)%nat
  ∧ Forall (fun c => isalpha c = true) name
  ∧ (∀ c, c ∈ name → c ∈ url).
Proof. apply extract_splits. Qed.

Lemma extract_splits_gallery_query :
  extract_base_url_and_name (lit "https://site.example/gallery42/index.html?ref=a/b")
  = Return (lit "https://site.example/gallery42/index.html?ref=a", lit "gallery")
  ∧ basename (lit "https://site.example/gallery42/index.html?ref=a/b") = lit "b"
  ∧ slash ∉ lit "b".
Proof.
  assert (H : extract_base_url_and_name
                (lit "https://site.example/gallery42/index.html?ref=a/b")
              = Return (lit "https://site.example/gallery42/index.html?ref=a",
                        lit "gallery")) by (vm_compute; reflexivity).
  split; [exact H|].
  destruct (extract_splits_url _ _ _ H) as (_ & Hno & _).
  split; [vm_compute; reflexivity|exact Hno].
Defined.

(** ** Candidates never collide *)

Section Candidates.

Implicit Types base_url name folder : str.

Lemma lit_inj (s t : string) : lit s = lit t → s = t.
Proof.
  unfold lit. intros H. apply (f_equal String.string_of_list_ascii) in H.
  by rewrite !String.string_of_list_ascii_of_string in H.
Qed.

Lemma str_of_int_inj (i j : Z) : str_of_int i = str_of_int j → i = j.
Proof.
  unfold str_of_int. intros H. apply lit_inj in H.
  assert (Hnil : ∀ z, Z.to_int z ≠ Decimal.Pos Decimal.Nil
                      ∧ Z.to_int z ≠ Decimal.Neg Decimal.Nil).
  { intros [|p|p]; cbn [Z.to_int]; (split; [|done || idtac]); try done;
      intros [= Hp]; by apply DecimalPos.Unsigned.to_uint_nonnil in Hp. }
  apply DecimalZ.to_int_inj.
  destruct (Hnil i) as [Hi1 Hi2], (Hnil j) as [Hj1 Hj2].
  pose proof (NilZero.isi _ Hi1 Hi2) as Ei. pose proof (NilZero.isi _ Hj1 Hj2) as Ej.
  rewrite H in Ei. congruence.
Qed.

Lemma digits_no_slash (d : Decimal.uint) : slash ∉ lit (NilEmpty.string_of_uint d).
Proof.
  induction d; cbn [NilEmpty.string_of_uint lit String.list_ascii_of_string];
    [apply not_elem_of_nil|..];
    (apply not_elem_of_cons; split; [done|exact IHd]).
Qed.

Lemma str_of_int_no_slash (i : Z) : slash ∉ str_of_int i.
Proof.
  unfold str_of_int.
  assert (Hu : ∀ d, slash ∉ lit (NilZero.string_of_uint d)).
  { intros d. destruct d; try apply digits_no_slash.
    cbn. apply not_elem_of_cons. split; [done|apply not_elem_of_nil]. }
  destruct (Z.to_int i) as [d|d]; cbn [NilZero.string_of_int]; [apply Hu|].
  cbn [lit String.list_ascii_of_string]. apply not_elem_of_cons. split; [done|apply Hu].
Qed.

Lemma image_url_inj base_url name (i j : Z) :
  image_url base_url name i = image_url base_url name j → i = j.
Proof.
  unfold image_url. intros H.
  do 3 apply app_inv_head in H. apply app_inv_tail in H.
  by apply str_of_int_inj.
Qed.

Lemma alpha_no_slash name : Forall (fun c => isalpha c = true) name → slash ∉ name.
Proof.
  intros Hall Hin. rewrite Forall_forall in Hall. apply Hall in Hin.
  vm_compute in Hin. done.
Qed.

Lemma image_url_basename base_url name (i : Z) :
  slash ∉ name →
  basename (image_url base_url name i) = name ++ str_of_int i ++ lit ".jpg".
Proof.
  intros Hname. unfold basename, image_url.
  change (lit "/images/") with (lit "/images" ++ [slash]).
  replace (base_url ++ (lit "/images" ++ [slash]) ++ name ++ str_of_int i ++ lit ".jpg")
    with ((base_url ++ lit "/images") ++ slash :: (name ++ str_of_int i ++ lit ".jpg"))
    by (by rewrite <- !app_assoc).
  rewrite rpartition_app; [done|].
  rewrite !not_elem_of_app. split; [done|]. split; [apply str_of_int_no_slash|].
  intros Hin. apply list_elem_of_In in Hin. vm_compute in Hin. intuition discriminate.
Qed.

Lemma path_join_inj folder (f g : str) :
  slash ∉ f → slash ∉ g → path_join folder f = path_join folder g → f = g.
Proof.
  assert (Hstart : ∀ h : str, slash ∉ h → startswith [slash] h = false).
  { intros [|c h] Hh; [done|]. cbn [startswith].
    destruct (Ascii.eqb_spec slash c) as [<-|]; [|done].
    destruct Hh. left. }
  intros Hf Hg. unfold path_join. rewrite (Hstart f Hf), (Hstart g Hg).
  destruct (_ || _); intros H; apply app_inv_head in H; congruence.
Qed.

Lemma keep_alpha_none (s : str) :
  Forall (fun c => isalpha c = false) s → keep_alpha s = [].
Proof.
  unfold keep_alpha. induction 1 as [|c s Hc _ IH]; [done|].
  cbn [List.filter]. by rewrite Hc.
Qed.

End Candidates.

(** X3: the candidates built from what [extract_base_url_and_name] returns
    never collide: for any bound the generated URLs are pairwise distinct,
    the file name of candidate [i] is [{name}{i}.jpg], and the destinations
    of the candidates in one folder are pairwise distinct, so that no
    download of a run overwrites the file of another. *)
Theorem candidates_never_collide (url base_url name folder : str) (N i : Z) :
  extract_base_url_and_name url = Return (base_url, name) →
  NoDup (generate_image_urls base_url name N)
  ∧ basename (image_url base_url name i) = name ++ str_of_int i ++ lit ".jpg"
  ∧ NoDup (destination folder <$> generate_image_urls base_url name N).
Proof.
  intros H. apply extract_splits in H as (_ & _ & _ & Halpha & _).
  apply alpha_no_slash in Halpha.
  assert (Hurls : NoDup (generate_image_urls base_url name N)).
  { unfold generate_image_urls, range. apply NoDup_fmap_2_strong; [|apply NoDup_seqZ].
    intros a b _ _. apply image_url_inj. }
  split; [exact Hurls|]. split; [by apply image_url_basename|].
  unfold generate_image_urls in *. rewrite <- list_fmap_compose.
  apply NoDup_fmap_2_strong; [|apply NoDup_seqZ].
  intros a b _ _. unfold compose, destination.
  rewrite !image_url_basename by done. intros E.
  apply path_join_inj in E.
  - apply app_inv_head, app_inv_tail in E. by apply str_of_int_inj.
  - rewrite !not_elem_of_app. split; [done|]. split; [apply str_of_int_no_slash|].
    intros Hin. apply list_elem_of_In in Hin. vm_compute in Hin. intuition discriminate.
  - rewrite !not_elem_of_app. split; [done|]. split; [apply str_of_int_no_slash|].
    intros Hin. apply list_elem_of_In in Hin. vm_compute in Hin. intuition discriminate.
Qed.

Lemma candidates_never_collide_gallery :
  NoDup (generate_image_urls Synthetic.gallery_base Synthetic.gallery_name 100)
  ∧ basename (image_url Synthetic.gallery_base Synthetic.gallery_name 7)
    = lit "gallery7.jpg"
  ∧ NoDup (destination Synthetic.folder
             <$> generate_image_urls Synthetic.gallery_base Synthetic.gallery_name 100).
Proof.
  assert (H : extract_base_url_and_name Synthetic.gallery_url
              = Return (Synthetic.gallery_base, Synthetic.gallery_name))
    by (vm_compute; reflexivity).
  exact (candidates_never_collide Synthetic.gallery_url Synthetic.gallery_base
           Synthetic.gallery_name Synthetic.folder 100 7 H).
Defined.

(** X4: a token without letters gives an empty name, not an error: for a
    URL whose first [/index.html] follows a token of digits and
    underscores, [extract_base_url_and_name] returns the empty name, and
    the candidates are then [{base_url}/images/{i}.jpg]. *)
Theorem extract_token_without_letters (pre tok post : str) (i n : Z) :
  token tok → Forall (fun c => isalpha c = false) tok →
  contains Re.index_html pre = false →
  extract_base_url_and_name (pre ++ slash :: tok ++ Re.index_html ++ post)
  = Return (rsplit1_head (pre ++ slash :: tok ++ Re.index_html ++ post), [])
  ∧ (1 ≤ i ≤ n →
     ∀ base_url, generate_image_urls base_url [] n !! Z.to_nat (i - 1)
                 = Some (base_url ++ lit "/images/" ++ str_of_int i ++ lit ".jpg")).
Proof.
  intros Htok Hdigits Hpre. split.
  - unfold extract_base_url_and_name. rewrite search_first by done.
    by rewrite keep_alpha_none.
  - intros Hi base_url. by rewrite generate_image_urls_lookup.
Qed.

Lemma extract_token_without_letters_2024 :
  extract_base_url_and_name (lit "https://site.example/2024_05/index.html")
  = Return (lit "https://site.example/2024_05", [])
  ∧ generate_image_urls (lit "https://site.example/2024_05") [] 3 !! 1%nat
    = Some (lit "https://site.example/2024_05/images/2.jpg").
Proof.
  destruct (extract_token_without_letters (lit "https://site.example") (lit "2024_05") []
              2 3) as [Hx Hg].
  - apply token_forallb; [done|]. vm_compute. reflexivity.
  - apply Forall_forall. intros c Hc. apply list_elem_of_In in Hc.
    cbn in Hc. intuition (subst; reflexivity).
  - vm_compute. reflexivity.
  - split; [exact Hx|]. apply (Hg ltac:(lia)).
Defined.

(** ** One download, case by case *)

Section Attempt.

Variable w : world.

Implicit Types url folder path : str.
Implicit Types fs : gmap str (list ascii).

Lemma attempt_any_fs url folder fs :
  (V14.download_image w url folder fs).2 = attempt w folder url.
Proof. unfold attempt. rewrite !download_image_unfold. by repeat case_match. Qed.

Lemma attempt_unfold url folder :
  attempt w folder url
  = match get w url with
    | None => Return false
    | Some response =>
        if (400 <=? status_code response) && (status_code response <? 600)
        then Return false
        else
          match os_fault w (destination folder url) with
          | OpenFails => Raise OSError
          | flt => outcome_of (left_in_file response flt).2
          end
    end.
Proof.
  unfold attempt. rewrite download_image_unfold.
  destruct (get w url) as [response|]; [|done].
  destruct (_ && _); [done|].
  destruct (os_fault w (destination folder url)); cbn zeta; cbn [snd];
    by rewrite ?write_chunks_left.
Qed.




(** What a call leaves on the disk. *)
Lemma download_image_disk url folder fs :
  let fs' := (V14.download_image w url folder fs).1 in
  (fs' = fs ∨ ∃ data, fs' = <[destination folder url := data]> fs)
  ∧ (attempt w folder url = Return true →
     ∃ response, get w url = Some response
                 ∧ fs' = <[destination folder url := content response]> fs).
Proof.
  cbn zeta. rewrite attempt_unfold, download_image_unfold.
  destruct (get w url) as [response|]; [|by split; [left|]].
  destruct (_ && _); [by split; [left|]|].
  destruct (left_in_file_prefix response (os_fault w (destination folder url)))
    as [_ Hwhole].
  destruct (os_fault w (destination folder url)); [|by split; [left|]|];
    cbn zeta; cbn [fst snd]; rewrite write_chunks_left.
  all: split; [right; by eexists|].
  all: intros Hok; exists response; split; [done|].
  all: rewrite Hwhole; [done|].
  all: by destruct ((left_in_file _ _).2) as [[]|].
Qed.

End Attempt.



(** ** The pool and the disk *)

Section PoolDisk.

Variable w : world.

Implicit Types url folder path : str.
Implicit Types fs : gmap str (list ascii).

Lemma submit_all_attempts folder urls fs :
  (V14.submit_all w folder urls fs).2 = attempt w folder <$> urls.
Proof.
  revert fs; induction urls as [|url urls IH]; intros fs; cbn [V14.submit_all]; [done|].
  pose proof (attempt_any_fs w url folder fs) as Hout.
  destruct (V14.download_image w url folder fs) as [fs1 future].
  specialize (IH fs1). destruct (V14.submit_all w folder urls fs1) as [fs2 futures].
  cbn [snd] in *. by rewrite Hout, IH.
Qed.

Lemma submit_all_cons folder url urls fs :
  (V14.submit_all w folder (url :: urls) fs).1
  = (V14.submit_all w folder urls (V14.download_image w url folder fs).1).1.
Proof.
  cbn [V14.submit_all].
  destruct (V14.download_image w url folder fs) as [fs1 future]. cbn [fst].
  by destruct (V14.submit_all w folder urls fs1).
Qed.

Lemma download_images_disk order urls folder fs :
  (V14.download_images w order urls folder fs).1 = (V14.submit_all w folder urls fs).1.
Proof.
  unfold V14.download_images. by destruct (V14.submit_all w folder urls fs).
Qed.

Lemma submit_all_frame folder urls fs path :
  path ∉ destination folder <$> urls →
  (V14.submit_all w folder urls fs).1 !! path = fs !! path.
Proof.
  revert fs; induction urls as [|url urls IH]; intros fs Hpath; [done|].
  rewrite fmap_cons in Hpath. apply not_elem_of_cons in Hpath as [Hne Hpath].
  rewrite submit_all_cons, IH by done.
  destruct (download_image_disk w url folder fs) as [[->|[data ->]] _]; [done|].
  by rewrite lookup_insert_ne.
Qed.



Lemma count_results_raises finished s f :
  (∃ e, Raise e ∈ finished) →
  ∃ e, Raise e ∈ finished ∧ V14.count_results finished s f = Raise e.
Proof.
  revert s f; induction finished as [|[[]|e] finished IH]; intros s f [e' Hin].
  - by apply elem_of_nil in Hin.
  - apply elem_of_cons in Hin as [?|Hin]; [done|].
    destruct (IH (S s) f) as (e & He & Hc); [by exists e'|].
    exists e. split; [by right|done].
  - apply elem_of_cons in Hin as [?|Hin]; [done|].
    destruct (IH s (S f)) as (e & He & Hc); [by exists e'|].
    exists e. split; [by right|done].
  - exists e. split; [left|done].
Qed.

Lemma failed_attempts folder urls :
  Forall (fun url => ∃ b, attempt w folder url = Return b) urls →
  ∃ outcomes,
    attempt w folder <$> urls = Return <$> outcomes
    ∧ failed outcomes
      = length (List.filter (fun url => returns_false (attempt w folder url)) urls).
Proof.
  induction 1 as [|url urls [b Hb] _ (outcomes & Hout & Hfailed)].
  - by exists [].
  - exists (b :: outcomes). rewrite !fmap_cons, Hout, Hb. split; [done|].
    cbn [List.filter]. rewrite Hb. unfold failed in *. cbn [List.filter].
    destruct b; cbn [negb returns_false length]; by rewrite Hfailed.
Qed.

End PoolDisk.



(** X7: when the destinations of the URLs are pairwise distinct, every URL
    whose download returned [True] has its whole body in its destination
    file once [download_images] (v1.3, v1.4) is over, whatever the other
    downloads did. *)
Theorem download_images_stores_bodies (w : world) (order : list nat) (urls : list str)
    (folder url : str) (fs : gmap str (list ascii)) :
  NoDup (destination folder <$> urls) →
  url ∈ urls →
  attempt w folder url = Return true →
  ∃ response,
    get w url = Some response
    ∧ (V14.download_images w order urls folder fs).1 !! destination folder url
      = Some (content response).
Proof.
  rewrite download_images_disk. intros Hdistinct Hin Hok.
  revert fs; induction urls as [|u urls IH]; intros fs; [by apply elem_of_nil in Hin|].
  rewrite fmap_cons in Hdistinct. apply NoDup_cons in Hdistinct as [Hfresh Hdistinct].
  rewrite submit_all_cons.
  destruct (decide (url = u)) as [<-|Hne].
  - rewrite submit_all_frame by done.
    destruct (download_image_disk w url folder fs) as [_ Hbody].
    destruct (Hbody Hok) as (response & Hget & ->).
    exists response. split; [done|]. apply lookup_insert_eq.
  - apply elem_of_cons in Hin as [?|Hin]; [done|]. by apply IH.
Qed.

Lemma download_images_stores_bodies_gallery :
  ∃ response,
    get Synthetic.gallery_1_3 (lit "https://site.example/gallery42/images/gallery3.jpg")
    = Some response
    ∧ (V14.download_images Synthetic.gallery_1_3 [2; 0; 1]%nat
         (generate_image_urls Synthetic.gallery_base Synthetic.gallery_name 3)
         Synthetic.folder ∅).1
        !! destination Synthetic.folder
             (lit "https://site.example/gallery42/images/gallery3.jpg")
      = Some (content response).
Proof.
  apply download_images_stores_bodies.
  - apply (bool_decide_eq_true_1 (NoDup _)). vm_compute. reflexivity.
  - apply (bool_decide_eq_true_1 (_ ∈ _)). vm_compute. reflexivity.
  - vm_compute. reflexivity.
Defined.

(** X8: [download_images] (v1.3, v1.4) counts all or nothing, whatever the
    order in which the downloads finish: when every download returned, it
    returns counts that add up to the number of URLs, the failures being
    the downloads that returned [False]; when some download raised, it
    raises the exception of one of the downloads that raised and returns no
    counts, so that the outcomes of all the other URLs are lost. *)
Theorem download_images_all_or_nothing (w : world) (order : list nat) (urls : list str)
    (folder : str) (fs : gmap str (list ascii)) :
  order ≡ₚ seq 0 (length urls) →
  (Forall (fun url => ∃ b, attempt w folder url = Return b) urls →
   ∃ success_count fail_count,
     (V14.download_images w order urls folder fs).2 = Return (success_count, fail_count)
     ∧ (success_count + fail_count = length urls)%nat
     ∧ fail_count
       = length (List.filter (fun url => returns_false (attempt w folder url)) urls))
  ∧ ((∃ url e, url ∈ urls ∧ attempt w folder url = Raise e) →
     ∃ url e, url ∈ urls ∧ attempt w folder url = Raise e
              ∧ (V14.download_images w order urls folder fs).2 = Raise e).
Proof.
  intros Horder.
  assert (Hfutures : (V14.download_images w order urls folder fs).2
                     = V14.count_results
                         (V14.as_completed order (attempt w folder <$> urls)) 0 0).
  { unfold V14.download_images. pose proof (submit_all_attempts w folder urls fs) as H.
    destruct (V14.submit_all w folder urls fs) as [fs' futures]. cbn [snd] in *.
    by rewrite H. }
  assert (Hperm : V14.as_completed order (attempt w folder <$> urls)
                  ≡ₚ attempt w folder <$> urls).
  { apply as_completed_permutation. by rewrite length_fmap. }
  rewrite Hfutures. split.
  - intros Hall. destruct (failed_attempts w folder urls Hall) as (outcomes & Hout & Hfailed).
    assert (Hlen : length outcomes = length urls).
    { apply (f_equal length) in Hout. by rewrite !length_fmap in Hout. }
    assert (Hperm' : V14.as_completed order outcomes ≡ₚ outcomes).
    { apply as_completed_permutation. by rewrite Hlen. }
    rewrite Hout, as_completed_fmap, count_results_returns.
    destruct (tally_permutation _ _ Hperm') as [-> ->].
    eexists _, _. split; [reflexivity|]. cbn [Nat.add]. split; [|done].
    by rewrite tally_total.
  - intros (url & e & Hin & Hraise).
    destruct (count_results_raises (V14.as_completed order (attempt w folder <$> urls))
                0 0) as (e' & He & ->).
    { exists e. rewrite Hperm, <- Hraise. by apply list_elem_of_fmap_2. }
    rewrite Hperm in He. apply list_elem_of_fmap in He as (u & Hu & Hin').
    by exists u, e'.
Qed.

Lemma download_images_all_or_nothing_full_disk :
  ∃ url e,
    url ∈ generate_image_urls Synthetic.gallery_base Synthetic.gallery_name 2
    ∧ attempt Synthetic.full_disk Synthetic.folder url = Raise e
    ∧ (V14.download_images Synthetic.full_disk [1; 0]%nat
         (generate_image_urls Synthetic.gallery_base Synthetic.gallery_name 2)
         Synthetic.folder ∅).2
      = Raise e.
Proof.
  destruct (download_images_all_or_nothing Synthetic.full_disk [1; 0]%nat
              (generate_image_urls Synthetic.gallery_base Synthetic.gallery_name 2)
              Synthetic.folder ∅) as [_ Hraise].
  - apply perm_swap.
  - apply Hraise. exists Synthetic.one_url, OSError. split; [|vm_compute; reflexivity].
    apply (bool_decide_eq_true_1 (_ ∈ _)). vm_compute. reflexivity.
Defined.

(** ** Validation as an operation on lists *)

(** X11: [validate_image_urls] (v1.3) keeps, in their order, exactly the
    URLs that pass the probe: it distributes over the concatenation of two
    lists, validating its own result changes nothing, the result is never
    longer than the input, and it has no duplicates when the input has
    none. *)
Theorem validate_image_urls_algebra (w : world) (urls more : list str) (url : str) :
  V13.validate_image_urls w (urls ++ more)
  = V13.validate_image_urls w urls ++ V13.validate_image_urls w more
  ∧ V13.validate_image_urls w (V13.validate_image_urls w urls)
    = V13.validate_image_urls w urls
  ∧ (length (V13.validate_image_urls w urls) ≤ length urls)%nat
  ∧ (url ∈ V13.validate_image_urls w urls ↔ url ∈ urls ∧ V12.is_image_url w url = true)
  ∧ (NoDup urls → NoDup (V13.validate_image_urls w urls)).
Proof.
  rewrite !validate_image_urls_filter.
  split; [apply List.filter_app|].
  split.
  { induction urls as [|u urls IH]; [done|]. cbn [List.filter].
    destruct (V12.is_image_url w u) eqn:Hu; [|done].
    cbn [List.filter]. by rewrite Hu, IH. }
  split; [apply List.filter_length_le|].
  split; [by rewrite !list_elem_of_In, filter_In|].
  intros Hnodup. apply NoDup_ListNoDup, List.NoDup_filter. by apply NoDup_ListNoDup.
Qed.

Lemma validate_image_urls_algebra_gallery :
  NoDup (V13.validate_image_urls Synthetic.gallery_1_3
           (V13.fetch_all_links Synthetic.gallery_base Synthetic.gallery_name 5)).
Proof.
  apply (validate_image_urls_algebra Synthetic.gallery_1_3 _ [] []).
  apply (bool_decide_eq_true_1 (NoDup _)). vm_compute. reflexivity.
Defined.

(** ** More on the discovery loop *)

Section DiscoveryResult.

Variables (w : world) (base_url name : str).

Local Abbreviation accepts := (oracle w base_url name).

Lemma discover_stops fuel urls :
  V12.discover_image_urls w base_url name fuel = Some urls →
  ∃ n, (n ≤ fuel)%nat ∧ third_miss accepts n
       ∧ V12.while w base_url name fuel V12.initial
         = Some (after_turns w base_url name n)
       ∧ urls = urls_of base_url name (List.filter accepts (seq 1 n)).
Proof.
  unfold V12.discover_image_urls. intros Hrun.
  destruct (V12.while w base_url name fuel V12.initial) as [st|] eqn:Hst; [|done].
  pose proof Hst as Hst'.
  apply (while_stops w base_url name fuel 0) in Hst' as (d & Hd & -> & Hstop & Hlow).
  cbn [Nat.add] in *. exists d. split; [done|]. split.
  - apply third_miss_streak. split; [done|]. intros m Hm. apply Hlow. lia.
  - split; [done|]. rewrite after_turns_state in Hrun. by injection Hrun as <-.
Qed.

Lemma urls_of_inj (i j : nat) :
  image_url base_url name (Z.of_nat i) = image_url base_url name (Z.of_nat j) → i = j.
Proof. intros H. apply image_url_inj in H. lia. Qed.

Lemma filter_fmap {A B : Type} (f : A → B) (p : B → bool) (l : list A) :
  List.filter p (f <$> l) = f <$> List.filter (fun x => p (f x)) l.
Proof.
  induction l as [|x l IH]; [done|]. cbn [fmap list_fmap List.filter].
  fold (fmap f l). rewrite IH. by destruct (p (f x)).
Qed.

Lemma fetch_all_links_urls_of (n : nat) :
  V13.fetch_all_links base_url name (Z.of_nat n) = urls_of base_url name (seq 1 n).
Proof.
  unfold V13.fetch_all_links, urls_of, range, seqZ.
  replace (Z.to_nat (Z.of_nat n + 1 - 1)) with n by lia.
  rewrite <- fmap_S_seq, <- !list_fmap_compose. apply list_fmap_ext.
  intros _ i _. unfold compose. f_equal. lia.
Qed.

End DiscoveryResult.

(** X13: what [discover_image_urls] (v1.2) returns is sound: every URL of
    the list passed the probe, no URL occurs twice, the list is shorter
    than the number of probes by at least the three final misses, and the
    list is empty exactly when the candidates 1, 2 and 3 were all
    rejected. *)
Theorem discover_image_urls_sound (w : world) (base_url name : str) (fuel : nat)
    (urls : list str) :
  V12.discover_image_urls w base_url name fuel = Some urls →
  Forall (fun url => V12.is_image_url w url = true) urls
  ∧ NoDup urls
  ∧ (∃ st, V12.while w base_url name fuel V12.initial = Some st
           ∧ (length urls + 3 ≤ length (V12.probed st))%nat
           ∧ ∀ url, url ∈ urls → url ∈ V12.probed st)
  ∧ (urls = [] ↔ three_misses (oracle w base_url name) 1).
Proof.
  intros Hrun.
  destruct (discover_stops w base_url name fuel urls Hrun)
    as (n & Hn & Hthird & Hwhile & ->).
  pose proof Hthird as (Hn3 & Hmiss & Hfirst).
  split; [|split; [|split]].
  - unfold urls_of. apply Forall_fmap, Forall_forall. intros i Hi.
    apply list_elem_of_In, filter_In in Hi as [_ Hi]. exact Hi.
  - unfold urls_of. apply NoDup_fmap_2_strong.
    + intros i j _ _ H. exact (urls_of_inj base_url name i j H).
    + apply NoDup_ListNoDup, List.NoDup_filter, NoDup_ListNoDup, NoDup_seq.
  - exists (after_turns w base_url name n). split; [done|].
    rewrite after_turns_state. cbn [V12.probed]. unfold urls_of. split.
    + rewrite !length_fmap, length_seq.
      destruct Hmiss as (H1 & H2 & H3).
      replace n with ((n - 3) + 3)%nat at 1 by lia.
      rewrite seq_app, List.filter_app, length_app. cbn [seq List.filter].
      replace (1 + (n - 3))%nat with (n - 2)%nat by lia.
      rewrite H1, H2, H3. cbn [length].
      pose proof (List.filter_length_le (oracle w base_url name) (seq 1 (n - 3))) as Hle.
      rewrite length_seq in Hle. lia.
    + intros url Hurl. apply list_elem_of_fmap in Hurl as (i & -> & Hi).
      apply (list_elem_of_fmap_2 (fun j => image_url base_url name (Z.of_nat j))).
      apply list_elem_of_In, filter_In in Hi as [Hi _]. by apply list_elem_of_In.
  - split.
    + intros Hempty. apply fmap_nil_inv in Hempty.
      assert (Hnone : ∀ i, (1 ≤ i ≤ n)%nat → oracle w base_url name i = false).
      { intros i Hi. destruct (oracle w base_url name i) eqn:Hacc; [|done].
        assert (Hin : In i (List.filter (oracle w base_url name) (seq 1 n))).
        { apply filter_In. split; [apply in_seq; lia|done]. }
        rewrite Hempty in Hin. done. }
      repeat split; apply Hnone; lia.
    + intros Hfirst3.
      assert (n = 3%nat) as ->.
      { destruct (decide (n = 3%nat)) as [|Hne]; [done|].
        destruct (Hfirst 1%nat); [lia|lia|done]. }
      destruct Hfirst3 as (H1 & H2 & H3). cbn [seq List.filter].
      by rewrite H1, H2, H3.
Qed.

Lemma discover_image_urls_sound_gallery :
  Forall (fun url => V12.is_image_url Synthetic.gallery_1_2_3 url = true)
    [lit "https://site.example/gallery42/images/gallery1.jpg";
     lit "https://site.example/gallery42/images/gallery2.jpg";
     lit "https://site.example/gallery42/images/gallery3.jpg"].
Proof.
  apply (discover_image_urls_sound Synthetic.gallery_1_2_3 Synthetic.gallery_base
           Synthetic.gallery_name 6).
  vm_compute. reflexivity.
Defined.

(** X14: adaptive discovery (v1.2) and bounded validation (v1.3) agree up
    to the point where discovery stops: when [discover_image_urls] returns,
    having stopped at candidate [n], its result is what
    [validate_image_urls] keeps of the first [n] candidates of
    [fetch_all_links], and for every bound from [n] on it is a leading part
    of what bounded validation finds. *)
Theorem discover_agrees_with_validation (w : world) (base_url name : str) (fuel : nat)
    (urls : list str) :
  V12.discover_image_urls w base_url name fuel = Some urls →
  ∃ n, third_miss (oracle w base_url name) n
       ∧ urls = V13.validate_image_urls w
                  (V13.fetch_all_links base_url name (Z.of_nat n))
       ∧ ∀ bound, Z.of_nat n ≤ bound →
           urls `prefix_of` V13.validate_image_urls w
                              (V13.fetch_all_links base_url name bound).
Proof.
  intros Hrun.
  destruct (discover_stops w base_url name fuel urls Hrun) as (n & _ & Hthird & _ & ->).
  exists n. split; [done|].
  assert (Hn : urls_of base_url name (List.filter (oracle w base_url name) (seq 1 n))
               = V13.validate_image_urls w
                   (V13.fetch_all_links base_url name (Z.of_nat n))).
  { rewrite validate_image_urls_filter, fetch_all_links_urls_of.
    unfold urls_of. by rewrite filter_fmap. }
  split; [done|]. intros bound Hbound. rewrite Hn.
  rewrite !validate_image_urls_filter. unfold V13.fetch_all_links, range.
  replace (bound + 1 - 1) with (Z.of_nat n + (bound - Z.of_nat n)) by lia.
  replace (Z.of_nat n + 1 - 1) with (Z.of_nat n) by lia.
  rewrite seqZ_app, fmap_app, List.filter_app by lia.
  by apply prefix_app_r.
Qed.

Lemma discover_agrees_with_validation_gallery :
  ∃ n, third_miss
         (oracle Synthetic.gallery_1_2_3 Synthetic.gallery_base Synthetic.gallery_name) n
       ∧ [lit "https://site.example/gallery42/images/gallery1.jpg";
          lit "https://site.example/gallery42/images/gallery2.jpg";
          lit "https://site.example/gallery42/images/gallery3.jpg"]
         = V13.validate_image_urls Synthetic.gallery_1_2_3
             (V13.fetch_all_links Synthetic.gallery_base Synthetic.gallery_name
                (Z.of_nat n)).
Proof.
  destruct (discover_agrees_with_validation Synthetic.gallery_1_2_3 Synthetic.gallery_base
              Synthetic.gallery_name 6
              [lit "https://site.example/gallery42/images/gallery1.jpg";
               lit "https://site.example/gallery42/images/gallery2.jpg";
               lit "https://site.example/gallery42/images/gallery3.jpg"])
    as (n & Hthird & Hn & _); [vm_compute; reflexivity|].
  by exists n.
Defined.

(** ** The downloads of versions 1.1 and 1.2 *)

Section QuietDownloads.

Variable w : world.

Implicit Types url folder path save_path : str.
Implicit Types fs : gmap str (list ascii).

Lemma download_image_v12_quiet url save_path fs :
  (V12.download_image w url save_path fs).2 = Return ()
  ∧ ((V12.download_image w url save_path fs).1 = fs
     ∨ ∃ data, (V12.download_image w url save_path fs).1 = <[save_path := data]> fs)
  ∧ (get w url = None → (V12.download_image w url save_path fs).1 = fs).
Proof.
  rewrite download_image_v12_unfold.
  destruct (get w url) as [response|]; [|by repeat split; try left].
  destruct (_ && _); [by repeat split; try left|].
  destruct (os_fault w save_path); cbn [fst snd];
    (split; [done|]); (split; [|done]); (by left) || (right; by eexists).
Qed.

Lemma concurrently_cons url urls folder fs :
  V12.download_images_concurrently w (url :: urls) folder fs
  = V12.download_images_concurrently w urls folder
      (V12.download_image w url (destination folder url) fs).1.
Proof.
  cbn [V12.download_images_concurrently]. unfold destination.
  by destruct (V12.download_image w url (path_join folder (basename url)) fs).
Qed.

Lemma concurrently_quiet urls folder fs :
  (V12.download_images_concurrently w urls folder fs).2 = Return ().
Proof.
  revert fs; induction urls as [|url urls IH]; intros fs; [done|].
  by rewrite concurrently_cons.
Qed.

Lemma concurrently_frame urls folder fs path :
  path ∉ destination folder <$> urls →
  (V12.download_images_concurrently w urls folder fs).1 !! path = fs !! path.
Proof.
  revert fs; induction urls as [|url urls IH]; intros fs Hpath; [done|].
  rewrite fmap_cons in Hpath. apply not_elem_of_cons in Hpath as [Hne Hpath].
  rewrite concurrently_cons, IH by done.
  destruct (download_image_v12_quiet url (destination folder url) fs)
    as (_ & [->|[data ->]] & _); [done|].
  by rewrite lookup_insert_ne.
Qed.

Lemma concurrently_keeps urls folder fs path :
  is_Some (fs !! path) →
  is_Some ((V12.download_images_concurrently w urls folder fs).1 !! path).
Proof.
  revert fs; induction urls as [|url urls IH]; intros fs Hpath; [done|].
  rewrite concurrently_cons. apply IH.
  destruct (download_image_v12_quiet url (destination folder url) fs)
    as (_ & [->|[data ->]] & _); [done|].
  destruct (decide (destination folder url = path)) as [->|].
  - rewrite lookup_insert_eq. by eexists.
  - by rewrite lookup_insert_ne.
Qed.

Lemma concurrently_without_get urls folder fs :
  (∀ url, url ∈ urls → get w url = None) →
  (V12.download_images_concurrently w urls folder fs).1 = fs.
Proof.
  revert fs; induction urls as [|url urls IH]; intros fs Hget; [done|].
  rewrite concurrently_cons.
  destruct (download_image_v12_quiet url (destination folder url) fs) as (_ & _ & ->).
  - apply IH. intros u Hu. apply Hget. by right.
  - apply Hget. left.
Qed.

End QuietDownloads.

(** X15: [download_images_concurrently] (v1.2) never raises, whatever the
    downloads do; it writes to the destinations of its URLs and nowhere
    else and deletes nothing; and when every GET request fails it leaves
    the disk as it was. *)
Theorem download_images_concurrently_quiet (w : world) (urls : list str)
    (folder path : str) (fs : gmap str (list ascii)) :
  (V12.download_images_concurrently w urls folder fs).2 = Return ()
  ∧ (path ∉ destination folder <$> urls →
     (V12.download_images_concurrently w urls folder fs).1 !! path = fs !! path)
  ∧ (is_Some (fs !! path) →
     is_Some ((V12.download_images_concurrently w urls folder fs).1 !! path))
  ∧ ((∀ url, url ∈ urls → get w url = None) →
     (V12.download_images_concurrently w urls folder fs).1 = fs).
Proof.
  split; [apply concurrently_quiet|]. split; [apply concurrently_frame|].
  split; [apply concurrently_keeps|apply concurrently_without_get].
Qed.

Lemma download_images_concurrently_quiet_offline :
  (V12.download_images_concurrently Synthetic.offline
     (generate_image_urls Synthetic.gallery_base Synthetic.gallery_name 3)
     Synthetic.folder ∅).1 = ∅.
Proof.
  apply (download_images_concurrently_quiet Synthetic.offline _ Synthetic.folder []).
  intros url _. reflexivity.
Defined.

(** X17: the one function of v1.1 does what the two functions of v1.4 do
    one after the other: [extract_name_and_generate_urls] raises the format
    error on the URLs without a segment, whatever the ending number, and
    otherwise returns the candidates that [generate_image_urls] builds from
    what [extract_base_url_and_name] returns: pairwise distinct URLs, as
    many as the ending number, none for an ending number below 1. *)
Theorem extract_name_and_generate_urls_cases (original_url : str) (end_ : Z) :
  (¬ has_segment original_url →
   ∃ msg, V11.extract_name_and_generate_urls original_url end_ = Raise (ValueError msg))
  ∧ (has_segment original_url →
     ∃ base_url name,
       extract_base_url_and_name original_url = Return (base_url, name)
       ∧ V11.extract_name_and_generate_urls original_url end_
         = Return (generate_image_urls base_url name end_)
       ∧ length (generate_image_urls base_url name end_) = Z.to_nat end_
       ∧ NoDup (generate_image_urls base_url name end_)
       ∧ (end_ < 1 → generate_image_urls base_url name end_ = [])).
Proof.
  unfold V11.extract_name_and_generate_urls. split.
  - intros Hno. destruct (Re.search original_url) as [tok|] eqn:Hs; [|by eexists].
    destruct Hno. by apply search_sound in Hs.
  - intros Hseg. destruct (search_complete _ Hseg) as [tok Hs].
    exists (rsplit1_head original_url), (keep_alpha tok).
    unfold extract_base_url_and_name. rewrite Hs.
    split; [done|]. split; [done|]. split; [apply generate_image_urls_length|].
    split.
    + unfold generate_image_urls, range. apply NoDup_fmap_2_strong; [|apply NoDup_seqZ].
      intros a b _ _. apply image_url_inj.
    + intros Hend. unfold generate_image_urls, range. by rewrite seqZ_nil by lia.
Qed.

Lemma extract_name_and_generate_urls_cases_gallery :
  ∃ base_url name,
    extract_base_url_and_name Synthetic.gallery_url = Return (base_url, name)
    ∧ V11.extract_name_and_generate_urls Synthetic.gallery_url 5
      = Return (generate_image_urls base_url name 5)
    ∧ length (generate_image_urls base_url name 5) = Z.to_nat 5
    ∧ NoDup (generate_image_urls base_url name 5)
    ∧ (5 < 1 → generate_image_urls base_url name 5 = []).
Proof.
  apply extract_name_and_generate_urls_cases.
  apply search_sound with (tok := lit "gallery42"). vm_compute. reflexivity.
Defined.

(** ** The content type test and the stored file name *)

Section Substring.

Implicit Types needle hay : str.

Lemma contains_inv needle hay :
  contains needle hay = true → ∃ before after, hay = before ++ needle ++ after.
Proof.
  induction hay as [|c hay IH]; cbn [contains]; intros H.
  - rewrite orb_false_r in H. apply startswith_inv in H as [after ->]. by exists [], after.
  - apply orb_true_iff in H as [H|H].
    + apply startswith_inv in H as [after ->]. by exists [], after.
    + destruct (IH H) as (before & after & ->). by exists (c :: before), after.
Qed.

Lemma endswith_slash (folder : str) :
  endswith [slash] folder = true → ∃ front, folder = front ++ [slash].
Proof.
  unfold endswith. cbn [rev app]. intros H. apply startswith_inv in H as [post H].
  exists (rev post). apply (f_equal (@rev ascii)) in H.
  rewrite rev_involutive in H. rewrite H. by cbn [rev app].
Qed.

Lemma basename_no_slash (p : str) : slash ∉ basename p.
Proof.
  unfold basename. destruct (rpartition p) as [[h t]|] eqn:Hp.
  - by apply rpartition_split in Hp as [_ Ht].
  - intros Hin. apply rpartition_slash in Hin as [? Hin]. congruence.
Qed.

Lemma basename_plain (p : str) : slash ∉ p → basename p = p.
Proof.
  intros Hp. unfold basename. destruct (rpartition p) as [[h t]|] eqn:E; [|done].
  apply rpartition_split in E as [-> _]. destruct Hp. apply elem_of_app. right. left.
Qed.

End Substring.

(** X19: the content type test of [is_image_url] (v1.2) is a substring
    test: a URL is accepted exactly when HEAD answers with status 200 and a
    [Content-Type] header that has the text [image] somewhere in it, so
    that a media type such as [application/x-iso9660-image] is accepted
    too. *)
Theorem is_image_url_substring (w : world) (url : str) :
  V12.is_image_url w url = true
  ↔ ∃ response before after,
      head w url = Some response ∧ head_status response = 200
      ∧ content_type response = Some (before ++ lit "image" ++ after).
Proof.
  rewrite is_image_url_true. split.
  - intros (response & ct & Hhead & Hstatus & Hct & Himage).
    apply contains_inv in Himage as (before & after & ->).
    by exists response, before, after.
  - intros (response & before & after & Hhead & Hstatus & Hct).
    exists response, (before ++ lit "image" ++ after).
    repeat split; [done..|]. apply contains_app.
Qed.

Lemma is_image_url_substring_iso :
  V12.is_image_url Synthetic.iso_file Synthetic.one_url = true.
Proof.
  apply is_image_url_substring.
  by exists {| head_status := 200;
               content_type := Some (lit "application/x-iso9660-image") |},
            (lit "application/x-iso9660-"), [].
Defined.

(** X20: a download is stored under the last component of its URL: for
    every folder and URL, the base name of the destination that
    [download_image] (v1.3, v1.4) and [download_images_concurrently] (v1.2)
    compute is the base name of the URL, which contains no slash. *)
Theorem destination_basename (folder url : str) :
  basename (destination folder url) = basename url
  ∧ slash ∉ basename url.
Proof.
  pose proof (basename_no_slash url) as Hname. split; [|done].
  unfold destination, path_join.
  assert (Hstart : startswith [slash] (basename url) = false).
  { destruct (basename url) as [|c name]; [done|]. cbn [startswith].
    destruct (Ascii.eqb_spec slash c) as [<-|]; [|done]. destruct Hname. left. }
  rewrite Hstart. destruct (length folder =? 0)%nat eqn:Hlen.
  - apply Nat.eqb_eq in Hlen. destruct folder; [|done]. cbn [orb app].
    by apply basename_plain.
  - cbn [orb]. destruct (endswith [slash] folder) eqn:Hend.
    + apply endswith_slash in Hend as [front ->]. rewrite <- app_assoc. cbn [app].
      unfold basename at 1. by rewrite rpartition_app.
    + unfold basename at 1. by rewrite rpartition_app.
Qed.
